(** * Popper planning utilities ([popper/util.py]) in Rocq

    A shallow embedding of the literal scheduler ([order_rule],
    [order_rule_datalog]), the space enumerator ([bias_order]), the
    canonicaliser ([reduce_prog], [order_prog]) and the subsumption check
    ([rule_subsumes], [theory_subsumes]), followed by the properties the
    specification states about them.

    Conventions.
    - Python [int] is [Z]; [len(...)] is a [nat].
    - Python [str] is [string]; a tuple of strings is a [list string].
    - A [set]/[frozenset] is a stdpp [gset]; a [dict] whose order of
      insertion is observable is an association list.
    - A raised exception is the [Raise] case of [result].
    - Iterating over a hash set visits its members in an order the program
      does not control; the order is a parameter ([IterOrder]). *)

From stdpp Require Import gmap strings list sorting.
From Stdlib Require Import ZArith Lia.

Open Scope Z_scope.
Open Scope nat_scope.

(** ** Exceptions and results *)

Inductive exception :=
  | ValueError (message : string)
  | AttributeError (message : string)
  | TypeError (message : string)
  | IndexError (message : string)
  | ZeroDivisionError (message : string).

Inductive result (A : Type) :=
  | Ok (value : A)
  | Raise (exc : exception).
Arguments Ok {A} value.
Arguments Raise {A} exc.

#[global] Instance result_ret : MRet result := λ A a, Ok a.

#[global] Instance result_bind : MBind result := λ A B k r,
  match r with
  | Ok a => k a
  | Raise e => Raise e
  end.

(** ** Literals

    [Settings.__init__] builds [Literal(pred, args, modes)] with the modes
    ['+'] (in), ['-'] (out) and ['?'] (neither). *)

Inductive direction := DirIn | DirOut | DirUnbound.

#[global] Instance direction_eq_dec : EqDecision direction.
Proof. solve_decision. Defined.

Definition direction_code (d : direction) : nat :=
  match d with DirIn => 0 | DirOut => 1 | DirUnbound => 2 end.

Definition direction_of_code (n : nat) : direction :=
  match n with 0 => DirIn | 1 => DirOut | _ => DirUnbound end.

#[global] Instance direction_countable : Countable direction :=
  inj_countable' direction_code direction_of_code
    (λ d, match d with DirIn => eq_refl | DirOut => eq_refl | DirUnbound => eq_refl end).

Record Literal := mkLiteral {
  predicate : string;
  arguments : list string;
  directions : list direction
}.

#[global] Instance Literal_eq_dec : EqDecision Literal.
Proof. solve_decision. Defined.

Definition Literal_fields (l : Literal) : string * list string * list direction :=
  (predicate l, arguments l, directions l).

Definition Literal_of_fields (t : string * list string * list direction) : Literal :=
  mkLiteral t.1.1 t.1.2 t.2.

#[global] Instance Literal_countable : Countable Literal :=
  inj_countable' Literal_fields Literal_of_fields
    (λ l, match l with mkLiteral _ _ _ => eq_refl end).

(** Modelled from the spec: the attributes [inputs] and [outputs] of the
    class [Literal], which [popper/core.py] defines and [util.py] only
    imports.  The data model gives [inputs] as the set of arguments at [In]
    positions and [outputs] as the set of arguments at [Out] positions;
    modes and arguments are paired position by position.  [order_rule]
    calls [issubset] on [inputs] and [union] with [outputs]: both are
    sets. *)
Definition arguments_at (d : direction) (literal : Literal) : gset string :=
  list_to_set
    (snd <$> filter (λ p, p.1 = d) (zip (directions literal) (arguments literal))).

Definition inputs (literal : Literal) : gset string := arguments_at DirIn literal.
Definition outputs (literal : Literal) : gset string := arguments_at DirOut literal.

(** ** Python values that meet in a comparison

    [order_rule] compares the frozenset [head.inputs] with the list literal
    [[]].  Python's [==] between a frozenset and a list is [False] whatever
    their contents. *)

Inductive pyobj :=
  | PyFrozenset (s : gset string)
  | PyList (l : list string).

Definition py_eq (a b : pyobj) : bool :=
  match a, b with
  | PyFrozenset s, PyFrozenset t => bool_decide (s = t)
  | PyList l, PyList m => bool_decide (l = m)
  | _, _ => false
  end.

(** ** Iteration order of hash sets

    [for x in s] visits the members of [s], each one once, in an order
    that hashing decides.  The order is left open: any enumeration of the
    members will do.  Literals are values: two literals with the same
    predicate, arguments and modes are the same member of a set. *)

Class IterOrder := {
  set_iter : gset Literal → list Literal;
  set_iter_perm : ∀ s, set_iter s ≡ₚ elements s
}.

(** One order that exists: the one of [elements]. *)
Definition elements_order : IterOrder :=
  {| set_iter := elements; set_iter_perm := λ s, reflexivity (elements s) |}.

(** ** Rules and programs

    A rule is the pair [(head, body)]; [head] is [None] for a constraint.
    The body is a frozenset before scheduling and a tuple afterwards. *)

Inductive Body :=
  | BodySet (s : gset Literal)
  | BodyTuple (t : list Literal).

Definition Rule : Type := option Literal * Body.

Section Util.
Context {order : IterOrder}.

(** [for literal in body] *)
Definition py_iter (body : Body) : list Literal :=
  match body with
  | BodySet s => set_iter s
  | BodyTuple t => t
  end.

(** [set(body)] *)
Definition py_set (body : Body) : gset Literal :=
  match body with
  | BodySet s => s
  | BodyTuple t => list_to_set t
  end.

(** [len(body)] *)
Definition py_len (body : Body) : nat :=
  match body with
  | BodySet s => size s
  | BodyTuple t => length t
  end.

(** ** Rendering *)

Definition format_literal (literal : Literal) : string :=
  let args := String.concat "," (arguments literal) in
  predicate literal +:+ "(" +:+ args +:+ ")".

Definition format_rule (rule : Rule) : string :=
  let '(head, body) := rule in
  let head_str := match head with
                  | Some h => format_literal h
                  | None => ""
                  end in
  let body_str := String.concat "," (format_literal <$> py_iter body) in
  head_str +:+ ":- " +:+ body_str +:+ ".".

(** ** Size metrics *)

Definition rule_size (rule : Rule) : nat :=
  let '(head, body) := rule in
  1 + py_len body.

Definition calc_prog_size (prog : list Rule) : nat :=
  foldr (λ rule acc, rule_size rule + acc) 0 prog.

End Util.

(** ** [sorted(xs, key=...)]

    Python's sort is stable.  [sorted] inserts the elements from the right
    end of the list, each one before the first element whose key is not
    smaller: elements with equal keys keep their order. *)

Section Sorted.
Context {A K : Type} (key : A → K) (le : K → K → bool).

Fixpoint insert_sorted (x : A) (l : list A) : list A :=
  match l with
  | [] => [x]
  | y :: l' => if le (key x) (key y) then x :: y :: l' else y :: insert_sorted x l'
  end.

Definition sorted (l : list A) : list A := foldr insert_sorted [] l.

End Sorted.

(** Order of Python tuples [(bool, int)] and [(int, int)], and of [int]. *)
Definition bool_nat_le (a b : bool * nat) : bool :=
  if Bool.eqb a.1 b.1 then a.2 <=? b.2 else negb a.1.

Definition Z_Z_le (a b : Z * Z) : bool :=
  if (a.1 =? b.1)%Z then (a.2 <=? b.2)%Z else (a.1 <? b.1)%Z.

(** ** Run configuration: the fields of [Settings] the functions below read *)

Record Settings := mkSettings {
  datalog : bool;
  recall : gmap (string * string) Z;
  no_bias : bool;
  order_space : bool;
  max_vars : Z;
  max_rules : Z;
  max_body : Z;
  max_arity : Z;
  body_preds : gset (string * Z);
  search_order : option (list (Z * Z * Z * option Z))
}.

(** ** Literal scheduler *)

Section Scheduler.
Context {order : IterOrder}.

(** [head and literal.predicate != head.predicate] *)
Definition non_recursive (head : option Literal) (literal : Literal) : bool :=
  match head with
  | Some h => negb (String.eqb (predicate literal) (predicate h))
  | None => false
  end.

(** The [for literal in body_literals] pass of [order_rule]: [pool] is
    what is left to visit, [selected_literal] the variable of that name. *)
Fixpoint select_literal (head : option Literal) (grounded_variables : gset string)
    (selected_literal : option Literal) (pool : list Literal) : option Literal :=
  match pool with
  | [] => selected_literal
  | literal :: pool' =>
    if bool_decide (size (outputs literal) = length (arguments literal)) then
      Some literal
    else if negb (bool_decide (inputs literal ⊆ grounded_variables)) then
      select_literal head grounded_variables selected_literal pool'
    else if non_recursive head literal then
      Some literal
    else
      match selected_literal with
      | None => select_literal head grounded_variables (Some literal) pool'
      | Some _ => select_literal head grounded_variables selected_literal pool'
      end
  end.

Definition grounding_message (rule : Rule) : string :=
  "None" +:+ " in clause " +:+ format_rule rule +:+ " could not be grounded".

(** The [while body_literals] loop of [order_rule]; [None] when [fuel]
    iterations were not enough. *)
Fixpoint order_loop (fuel : nat) (rule : Rule) (head : option Literal)
    (grounded_variables : gset string) (body_literals : gset Literal)
    (ordered_body : list Literal) : option (result (list Literal)) :=
  if bool_decide (body_literals = ∅) then Some (Ok ordered_body)
  else
    match fuel with
    | 0 => None
    | S fuel' =>
      match select_literal head grounded_variables None (set_iter body_literals) with
      | None => Some (Raise (ValueError (grounding_message rule)))
      | Some selected_literal =>
        order_loop fuel' rule head
          (grounded_variables ∪ outputs selected_literal)
          (body_literals ∖ {[selected_literal]})
          (ordered_body ++ [selected_literal])
      end
    end.

(** [tmp_score] of [order_rule_datalog] *)
Definition tmp_score (settings : Settings) (seen_vars : gset string)
    (literal : Literal) : Z :=
  let key := String.concat ""
    ((λ x, if bool_decide (x ∈ seen_vars) then "1" else "0") <$> arguments literal) in
  let k := (predicate literal, key) in
  match recall settings !! k with
  | Some score => score
  | None => 1000000%Z
  end.

Fixpoint datalog_loop (fuel : nat) (settings : Settings) (seen_vars : gset string)
    (body_literals : gset Literal) (ordered_body : list Literal)
    : option (result (list Literal)) :=
  if bool_decide (body_literals = ∅) then Some (Ok ordered_body)
  else
    match fuel with
    | 0 => None
    | S fuel' =>
      let selected_literal :=
        match find (λ literal,
                 bool_decide (list_to_set (arguments literal) ⊆ seen_vars))
               (set_iter body_literals) with
        | Some literal => Ok literal
        | None =>
          let xs := sorted (tmp_score settings seen_vars) Z.leb (set_iter body_literals) in
          match xs with
          | x :: _ => Ok x
          | [] => Raise (IndexError "list index out of range")
          end
        end in
      match selected_literal with
      | Raise e => Some (Raise e)
      | Ok selected_literal =>
        datalog_loop fuel' settings
          (seen_vars ∪ list_to_set (arguments selected_literal))
          (body_literals ∖ {[selected_literal]})
          (ordered_body ++ [selected_literal])
      end
    end.

Definition order_rule_datalog (rule : Rule) (settings : Settings)
    : option (result Rule) :=
  let '(head, body) := rule in
  let seen_vars : gset string :=
    match head with
    | Some h => ∅ ∪ list_to_set (arguments h)
    | None => ∅
    end in
  let body_literals := py_set body in
  match datalog_loop (size body_literals) settings seen_vars body_literals [] with
  | None => None
  | Some (Raise e) => Some (Raise e)
  | Some (Ok ordered_body) => Some (Ok (head, BodyTuple ordered_body))
  end.

Definition order_rule (rule : Rule) (settings : option Settings)
    : option (result Rule) :=
  let by_modes :=
    let '(head, body) := rule in
    let run (grounded_variables : gset string) :=
      let body_literals := py_set body in
      match order_loop (size body_literals) rule head grounded_variables
              body_literals [] with
      | None => None
      | Some (Raise e) => Some (Raise e)
      | Some (Ok ordered_body) => Some (Ok (head, BodyTuple ordered_body))
      end in
    match head with
    | Some h =>
      if py_eq (PyFrozenset (inputs h)) (PyList []) then Some (Ok rule)
      else run (∅ ∪ inputs h)
    | None => run ∅
    end in
  match settings with
  | Some st => if datalog st then order_rule_datalog rule st else by_modes
  | None => by_modes
  end.

End Scheduler.

(** ** Canonicaliser *)

(** The pair [(predicate, arguments)] a literal reduces to. *)
Definition Signature : Type := string * list string.

Section Canonicaliser.
Context {order : IterOrder}.

(** The inner [f] of [reduce_prog]. *)
Definition f (literal : Literal) : Signature :=
  (predicate literal, arguments literal).

(** [d[k] = v] on a dict kept in insertion order: a key already present
    keeps its place and takes the new value. *)
Fixpoint dict_set {K V} `{EqDecision K} (k : K) (v : V) (d : list (K * V))
    : list (K * V) :=
  match d with
  | [] => [(k, v)]
  | (k', v') :: d' =>
    if decide (k' = k) then (k', v) :: d' else (k', v') :: dict_set k v d'
  end.

Definition dict_values {K V} (d : list (K * V)) : list V := snd <$> d.

(** The key [k] of one rule.  [f(head)] reads [head.predicate], which
    fails on [None]. *)
Definition reduce_key (rule : Rule) : result (Signature * gset Signature) :=
  let '(head, body) := rule in
  head ← match head with
         | Some h => Ok (f h)
         | None =>
           Raise (AttributeError "'NoneType' object has no attribute 'predicate'")
         end;
  let body : gset Signature := list_to_set (f <$> py_iter body) in
  let k := (head, body) in
  Ok k.

Fixpoint reduce_loop (prog : list Rule)
    (reduced : list (Signature * gset Signature * Rule))
    : result (list (Signature * gset Signature * Rule)) :=
  match prog with
  | [] => Ok reduced
  | rule :: prog' =>
    k ← reduce_key rule;
    reduce_loop prog' (dict_set k rule reduced)
  end.

Definition reduce_prog (prog : list Rule) : result (list Rule) :=
  reduced ← reduce_loop prog [];
  Ok (dict_values reduced).

(** Every member of a body is a [Literal] here, so the filter
    [isinstance(literal, Literal)] of the source keeps all of them. *)
Definition rule_is_recursive (rule : Rule) : bool :=
  let '(head, body) := rule in
  match head with
  | None => false
  | Some h =>
    existsb (λ literal, String.eqb (predicate h) (predicate literal)) (py_iter body)
  end.

Definition order_prog (prog : list Rule) : list Rule :=
  sorted (λ rule, (rule_is_recursive rule, py_len rule.2)) bool_nat_le prog.

End Canonicaliser.

(** ** Subsumption

    [rule_subsumes] works on reduced rules: the head is [None] or a
    signature, the body a frozenset of signatures. *)

Definition ReducedRule : Type := option Signature * gset Signature.

Definition rule_subsumes (r1 r2 : ReducedRule) : bool :=
  let '(h1, b1) := r1 in
  let '(h2, b2) := r2 in
  if bool_decide (h1 ≠ None) && bool_decide (h2 = None) then false
  else bool_decide (b1 ⊆ b2).

Definition theory_subsumes (prog1 prog2 : list ReducedRule) : bool :=
  forallb (λ r2, existsb (λ r1, rule_subsumes r1 r2) prog1) prog2.

(** ** Space enumerator *)

(** [range(lo, hi)] *)
Definition range (lo hi : Z) : list Z := seqZ lo (hi - lo).

(** Pascal's triangle: the number of [k]-subsets of an [n]-set. *)
Fixpoint binomial (n k : nat) : Z :=
  match n, k with
  | _, 0 => 1%Z
  | 0, S _ => 0%Z
  | S n', S k' => (binomial n' k' + binomial n' (S k'))%Z
  end.

(** [math.comb(n, k)] *)
Definition comb (n k : Z) : result Z :=
  if (n <? 0)%Z then Raise (ValueError "n must be a non-negative integer")
  else if (k <? 0)%Z then Raise (ValueError "k must be a non-negative integer")
  else Ok (binomial (Z.to_nat n) (Z.to_nat k)).

(** [pow(base, exponent)] as [bias_order] uses it, with an integer wanted.
    A negative exponent gives a float, or no value at all for base zero;
    the float is what [math.comb] rejects one step later. *)
Definition pow (base exponent : Z) : result Z :=
  if (exponent <? 0)%Z then
    if (base =? 0)%Z then
      Raise (ZeroDivisionError "0.0 cannot be raised to a negative power")
    else Raise (TypeError "'float' object cannot be interpreted as an integer")
  else Ok (base ^ exponent)%Z.

(** [for x in xs: acc = body(x, acc)], stopping at the first exception. *)
Fixpoint for_each {A S} (xs : list A) (body : A → S → result S) (acc : S)
    : result S :=
  match xs with
  | [] => Ok acc
  | x :: xs' => acc' ← body x acc; for_each xs' body acc'
  end.

(** The innermost loop of [bias_order], over [size_vars], with its [break]
    and its two [continue]s. *)
Fixpoint vars_loop (predicates arity size_rules size_literals : Z)
    (vars : list Z) (ret : list (Z * Z * Z * Z)) : result (list (Z * Z * Z * Z)) :=
  match vars with
  | [] => Ok ret
  | size_vars :: vars' =>
    let max_possible_vars := (size_literals * arity - 1)%Z in
    if (size_vars >? max_possible_vars)%Z then Ok ret
    else
      p ← pow size_vars arity;
      hspace ← comb (predicates * p) size_literals;
      if (hspace =? 0)%Z then
        vars_loop predicates arity size_rules size_literals vars' ret
      else if (size_rules >? 1)%Z && (size_literals <? 5)%Z then
        vars_loop predicates arity size_rules size_literals vars' ret
      else
        vars_loop predicates arity size_rules size_literals vars'
          (ret ++ [(size_literals, size_vars, size_rules, hspace)])
  end.

(** The expanded sweep: the list [ret] before it is sorted. *)
Definition bias_sweep (settings : Settings) : result (list (Z * Z * Z * Z)) :=
  let predicates := (Z.of_nat (size (body_preds settings)) + 1)%Z in
  let arity := max_arity settings in
  let min_rules := if no_bias settings then 1%Z else max_rules settings in
  for_each (range min_rules (max_rules settings + 1)) (λ size_rules ret,
    let max_size := ((1 + max_body settings) * size_rules)%Z in
    for_each (range 1 (max_size + 1)) (λ size_literals ret,
      let minimum_vars := if no_bias settings then 1%Z else max_vars settings in
      vars_loop predicates arity size_rules size_literals
        (range minimum_vars (max_vars settings + 1)) ret) ret) [].

Definition with_search_order (settings : Settings)
    (ret : list (Z * Z * Z * option Z)) : Settings :=
  mkSettings (datalog settings) (recall settings) (no_bias settings)
    (order_space settings) (max_vars settings) (max_rules settings)
    (max_body settings) (max_arity settings) (body_preds settings) (Some ret).

(** [bias_order] returns the sequence together with the settings, whose
    [search_order] the expanded mode assigns. *)
Definition bias_order (settings : Settings) (max_size : Z)
    : result (Settings * list (Z * Z * Z * option Z)) :=
  if negb (no_bias settings || order_space settings) then
    Ok (settings,
        (λ size_literals, (size_literals, max_vars settings, max_rules settings, None))
          <$> range 1 max_size)
  else
    ret ← bias_sweep settings;
    let ret :=
      if order_space settings then
        sorted (λ tup : Z * Z * Z * Z, (tup.2, tup.1.1.1)) Z_Z_le ret
      else ret in
    let ret := (λ tup : Z * Z * Z * Z, (tup.1.1.1, tup.1.1.2, tup.1.2, Some tup.2)) <$> ret in
    Ok (with_search_order settings ret, ret).

(** ** The rest of the canonicaliser and the printer *)

(** Comparison of Python tuples, component by component: of tuples of
    strings, and of the key [(len(x.arguments), x.predicate, x.arguments)]
    of [order_rule2].  Strings compare character by character. *)
Definition lex_compare (c1 c2 : comparison) : comparison :=
  match c1 with
  | Eq => c2
  | Lt => Lt
  | Gt => Gt
  end.

Fixpoint str_tuple_compare (a b : list string) : comparison :=
  match a, b with
  | [], [] => Eq
  | [], _ :: _ => Lt
  | _ :: _, [] => Gt
  | x :: a', y :: b' => lex_compare (String.compare x y) (str_tuple_compare a' b')
  end.

Definition order_rule2_compare (a b : nat * string * list string) : comparison :=
  lex_compare (Nat.compare a.1.1 b.1.1)
    (lex_compare (String.compare a.1.2 b.1.2) (str_tuple_compare a.2 b.2)).

Definition order_rule2_le (a b : nat * string * list string) : bool :=
  match order_rule2_compare a b with
  | Gt => false
  | _ => true
  end.

Section Printer.
Context {order : IterOrder}.

(** [order_rule2]: [sorted] returns a list, which is iterated and measured
    like a tuple. *)
Definition order_rule2 (rule : Rule) : Rule :=
  let '(head, body) := rule in
  (head,
   BodyTuple (sorted (λ x, (length (arguments x), predicate x, arguments x))
                order_rule2_le (py_iter body))).

Definition prog_is_recursive (prog : list Rule) : bool :=
  if length prog <? 2 then false
  else existsb rule_is_recursive prog.

(** [head.predicate.startswith('inv')] *)
Definition rule_is_invented (rule : Rule) : bool :=
  let '(head, body) := rule in
  match head with
  | None => false
  | Some h => String.prefix "inv" (predicate h)
  end.

Definition prog_has_invention (prog : list Rule) : bool :=
  if length prog <? 2 then false
  else existsb rule_is_invented prog.

Definition newline : string := String (Ascii.ascii_of_nat 10) EmptyString.

(** The generator [format_rule(order_rule(rule)) for rule in ...] as
    [join] consumes it: rule by rule, stopping at the first exception. *)
Fixpoint format_rules (rules : list Rule) : option (result (list string)) :=
  match rules with
  | [] => Some (Ok [])
  | rule :: rest =>
    match order_rule rule None with
    | None => None
    | Some (Raise e) => Some (Raise e)
    | Some (Ok ordered) =>
      match format_rules rest with
      | None => None
      | Some (Raise e) => Some (Raise e)
      | Some (Ok lines) => Some (Ok (format_rule ordered :: lines))
      end
    end
  end.

Definition format_prog (prog : list Rule) : option (result string) :=
  match format_rules (order_prog prog) with
  | None => None
  | Some (Raise e) => Some (Raise e)
  | Some (Ok lines) => Some (Ok (String.concat newline lines))
  end.

Definition format_prog2 (prog : list Rule) : string :=
  String.concat newline ((λ rule, format_rule (order_rule2 rule)) <$> order_prog prog).

End Printer.

(** ** Vocabulary of the properties *)

(** [head.inputs], empty for a constraint. *)
Definition head_inputs (head : option Literal) : gset string :=
  match head with
  | Some h => inputs h
  | None => ∅
  end.

(** A generator: every argument is an output. *)
Definition is_generator (literal : Literal) : Prop :=
  size (outputs literal) = length (arguments literal).

(** Every literal of [ordered_body] finds its inputs in [grounded] or among
    the outputs of the literals before it. *)
Fixpoint grounding_safe (grounded : gset string) (ordered_body : list Literal)
    : Prop :=
  match ordered_body with
  | [] => True
  | literal :: rest =>
    inputs literal ⊆ grounded ∧ grounding_safe (grounded ∪ outputs literal) rest
  end.

(** The mode-directed policy is the one in force. *)
Definition mode_directed (settings : option Settings) : Prop :=
  match settings with
  | Some st => datalog st = false
  | None => True
  end.

(** What the loop of [reduce_prog] keeps true of the dict: no key twice,
    every value a rule seen so far and stored under its own key, and every
    rule seen so far has its key in the dict. *)
Definition reduced_invariant `{order : IterOrder} (seen : list Rule)
    (reduced : list (Signature * gset Signature * Rule)) : Prop :=
  NoDup reduced.*1
  ∧ (∀ k rule, (k, rule) ∈ reduced → rule ∈ seen ∧ reduce_key rule = Ok k)
  ∧ (∀ rule, rule ∈ seen → ∃ k, reduce_key rule = Ok k ∧ k ∈ reduced.*1).

(** A schedule of the members of a set that is grounding-safe. *)
Definition safe_schedule (grounded : gset string) (body_literals : gset Literal)
    (schedule : list Literal) : Prop :=
  schedule ≡ₚ elements body_literals ∧ grounding_safe grounded schedule.

(** The laws of a comparison that decides a strict total order. *)
Definition comparison_laws {A} (cmp : A → A → comparison) : Prop :=
  (∀ a, cmp a a = Eq)
  ∧ (∀ a b, cmp a b = Eq → a = b)
  ∧ (∀ a b, cmp a b = CompOpp (cmp b a))
  ∧ (∀ a b c, cmp a b = Lt → cmp b c = Lt → cmp a c = Lt).

(** Recursion comes last: a literal with the predicate of the head that is
    no generator is scheduled only when no literal still waiting is a
    generator or ready (non-recursive with its inputs grounded). *)
Fixpoint recursion_last `{order : IterOrder} (head : option Literal)
    (grounded : gset string) (schedule : list Literal) : Prop :=
  match schedule with
  | [] => True
  | literal :: rest =>
    (non_recursive head literal = false → ¬ is_generator literal →
     Forall (λ waiting, ¬ is_generator waiting
               ∧ ¬ (non_recursive head waiting = true ∧ inputs waiting ⊆ grounded))
       rest)
    ∧ recursion_last head (grounded ∪ outputs literal) rest
  end.



(** The order of the nested sweep: rule count, then literal count, then
    variable count. *)
Definition sweep_before (size_rules size_literals size_vars : Z)
    (tup : Z * Z * Z * Z) : Prop :=
  (tup.1.2 < size_rules
   ∨ (tup.1.2 = size_rules
      ∧ (tup.1.1.1 < size_literals
         ∨ (tup.1.1.1 = size_literals ∧ tup.1.1.2 < size_vars))))%Z.

Definition sweep_lt (a b : Z * Z * Z * Z) : Prop :=
  sweep_before b.1.2 b.1.1.1 b.1.1.2 a.

(** The bounds every configuration of the expanded sweep meets. *)
Definition configuration_ok (settings : Settings) (tup : Z * Z * Z * Z) : Prop :=
  let '(size_literals, size_vars, size_rules, hspace) := tup in
  ((if no_bias settings then 1 else max_rules settings) ≤ size_rules ≤ max_rules settings
   ∧ 1 ≤ size_literals ≤ (1 + max_body settings) * size_rules
   ∧ (if no_bias settings then 1 else max_vars settings) ≤ size_vars ≤ max_vars settings
   ∧ size_vars ≤ size_literals * max_arity settings - 1
   ∧ (1 < size_rules → 5 ≤ size_literals)
   ∧ 0 < hspace
   ∧ size_literals
     ≤ (Z.of_nat (size (body_preds settings)) + 1) * size_vars ^ max_arity settings)%Z.

(** ** Data of the examples *)

Module Examples.

Definition p_A := mkLiteral "p" ["A"] [DirIn].
Definition p_out_A := mkLiteral "p" ["A"] [DirOut].
Definition q_B := mkLiteral "q" ["B"] [DirIn].
Definition q_AB := mkLiteral "q" ["A"; "B"] [DirIn; DirOut].
Definition r_BC := mkLiteral "r" ["B"; "C"] [DirIn; DirOut].
Definition s_D := mkLiteral "s" ["D"] [DirIn].
Definition g_D := mkLiteral "g" ["D"] [DirOut].

(** [p(A) :- q(A,B), r(B,C).] and the recursive [p(A) :- p(A).] *)
Definition rule_two_literals : Rule := (Some p_A, BodyTuple [q_AB; r_BC]).
Definition rule_recursive : Rule := (Some p_A, BodyTuple [p_A]).

(** [p(A,B) :- q(A), r(B).] with its body in both orders *)
Definition p2 := mkLiteral "p" ["A"; "B"] [DirIn; DirOut].
Definition q_A := mkLiteral "q" ["A"] [DirIn].
Definition r_B := mkLiteral "r" ["B"] [DirOut].
Definition rule_q_r : Rule := (Some p2, BodyTuple [q_A; r_B]).
Definition rule_r_q : Rule := (Some p2, BodyTuple [r_B; q_A]).

(** [p(A,B) :- p(A,C), q(C).]: the recursive literal grounds [C] *)
Definition p_AC := mkLiteral "p" ["A"; "C"] [DirIn; DirOut].
Definition q_C := mkLiteral "q" ["C"] [DirIn].

(** Settings for the space enumerator: one body predicate of arity 2, at
    most 3 variables, 2 rules and 2 body literals, no-bias on. *)
Definition settings_by_space : Settings :=
  mkSettings false ∅ true true 3 2 2 2 {[("q", 2%Z)]} None.
Definition settings_by_sweep : Settings :=
  mkSettings false ∅ true false 3 2 2 2 {[("q", 2%Z)]} None.
Definition settings_recall : Settings :=
  mkSettings true {[("s", "0") := 3%Z]} false false 6 2 6 2 ∅ None.

Definition sequence_by_space : list (Z * Z * Z * option Z) :=
  [(2, 1, 1, Some 1); (1, 1, 1, Some 2); (2, 2, 1, Some 28);
   (6, 2, 2, Some 28); (3, 2, 1, Some 56); (5, 2, 2, Some 56);
   (2, 3, 1, Some 153); (3, 3, 1, Some 816); (5, 3, 2, Some 8568);
   (6, 3, 2, Some 18564)]%Z.
Definition sequence_by_sweep : list (Z * Z * Z * option Z) :=
  [(1, 1, 1, Some 2); (2, 1, 1, Some 1); (2, 2, 1, Some 28);
   (2, 3, 1, Some 153); (3, 2, 1, Some 56); (3, 3, 1, Some 816);
   (5, 2, 2, Some 56); (5, 3, 2, Some 8568); (6, 2, 2, Some 28);
   (6, 3, 2, Some 18564)]%Z.

End Examples.

(** * Properties *)

(** ** Literals *)

Lemma size_list_to_set_le (l : list string) :
  size (list_to_set l : gset string) ≤ length l.
Proof.
  induction l as [|x l IH].
  - rewrite list_to_set_nil, size_empty. done.
  - rewrite list_to_set_cons, size_union_alt, size_singleton.
    assert (size (list_to_set l ∖ {[x]} : gset string) ≤ size (list_to_set l : gset string)) as Hle.
    { apply subseteq_size. intros y Hy. by apply elem_of_difference in Hy as [? _]. }
    simpl. lia.
Qed.

Lemma filter_full {A} (P : A → Prop) `{∀ x, Decision (P x)} (l : list A) :
  length (filter P l) = length l → Forall P l.
Proof.
  induction l as [|x l IH]; intros Hlen; [constructor|].
  rewrite filter_cons in Hlen. destruct (decide (P x)) as [HP|HP]; simpl in Hlen.
  - constructor; [done|]. apply IH. lia.
  - pose proof (length_filter P l). lia.
Qed.

(** A generator has no input position at all. *)
Lemma generator_no_inputs (literal : Literal) :
  is_generator literal → inputs literal = ∅.
Proof.
  unfold is_generator, inputs, outputs, arguments_at. intros Hsize.
  set (zs := zip (directions literal) (arguments literal)) in *.
  pose proof (size_list_to_set_le (snd <$> filter (λ p, p.1 = DirOut) zs)) as H1.
  rewrite length_fmap in H1.
  pose proof (length_filter (λ p : direction * string, p.1 = DirOut) zs) as H2.
  assert (length zs ≤ length (arguments literal)) as H3.
  { unfold zs. rewrite length_zip. lia. }
  assert (Forall (λ p : direction * string, p.1 = DirOut) zs) as Hall.
  { apply (filter_full (λ p : direction * string, p.1 = DirOut)). lia. }
  replace (filter (λ p : direction * string, p.1 = DirIn) zs) with (@nil (direction * string)); [done|].
  symmetry. clear -Hall. induction Hall as [|p zs Hp _ IH]; [done|].
  rewrite filter_cons. destruct (decide (p.1 = DirIn)); [congruence|done].
Qed.

(** ** Sorting *)

Section SortedFacts.
Context {A K : Type} (key : A → K) (le : K → K → bool).

Lemma insert_sorted_perm (x : A) (l : list A) : insert_sorted key le x l ≡ₚ x :: l.
Proof.
  induction l as [|y l IH]; simpl; [done|].
  destruct (le (key x) (key y)); [done|].
  rewrite IH. apply perm_swap.
Qed.

Lemma sorted_perm (l : list A) : sorted key le l ≡ₚ l.
Proof.
  induction l as [|x l IH]; simpl; [done|].
  unfold sorted in IH. by rewrite insert_sorted_perm, IH.
Qed.

Hypothesis le_total : ∀ a b, le a b = false → le b a = true.
Hypothesis le_trans : ∀ a b c, le a b = true → le b c = true → le a c = true.

Let key_le (x y : A) : Prop := le (key x) (key y) = true.

Lemma insert_sorted_sorted (x : A) (l : list A) :
  StronglySorted key_le l → StronglySorted key_le (insert_sorted key le x l).
Proof.
  induction 1 as [|y l Hsorted IH Hall]; simpl.
  - repeat constructor.
  - destruct (le (key x) (key y)) eqn:Hxy.
    + constructor; [by constructor|]. constructor; [done|].
      eapply Forall_impl; [exact Hall|]. intros z Hyz. unfold key_le in *. eauto.
    + constructor; [done|].
      rewrite insert_sorted_perm. constructor; [|done].
      unfold key_le. by apply le_total.
Qed.

Lemma sorted_sorted (l : list A) : StronglySorted key_le (sorted key le l).
Proof.
  induction l as [|x l IH]; simpl; [constructor|].
  by apply insert_sorted_sorted.
Qed.

(** In the sorted list the keys never go down. *)
Lemma sorted_lookup_le (l : list A) (i j : nat) (a b : A) :
  i < j → sorted key le l !! i = Some a → sorted key le l !! j = Some b →
  le (key a) (key b) = true.
Proof.
  pose proof (sorted_sorted l) as Hsorted. revert i j.
  induction Hsorted as [|x xs Hsorted IH Hall]; intros i j Hij Hi Hj; [done|].
  destruct j as [|j]; [lia|]. simpl in Hj.
  destruct i as [|i]; simpl in Hi.
  - injection Hi as <-. rewrite Forall_forall in Hall.
    apply Hall. by eapply list_elem_of_lookup_2.
  - apply (IH i j); [lia|done..].
Qed.

End SortedFacts.

Lemma bool_nat_le_total a b : bool_nat_le a b = false → bool_nat_le b a = true.
Proof.
  destruct a as [[] m], b as [[] n]; unfold bool_nat_le; simpl; try done;
    rewrite Nat.leb_gt, Nat.leb_le; lia.
Qed.

Lemma bool_nat_le_trans a b c :
  bool_nat_le a b = true → bool_nat_le b c = true → bool_nat_le a c = true.
Proof.
  destruct a as [[] m], b as [[] n], c as [[] k]; unfold bool_nat_le; simpl; try done;
    rewrite !Nat.leb_le; lia.
Qed.

Lemma Z_Z_le_spec (a b : Z * Z) :
  Z_Z_le a b = true ↔ (a.1 < b.1 ∨ (a.1 = b.1 ∧ a.2 ≤ b.2))%Z.
Proof.
  unfold Z_Z_le. destruct (Z.eqb_spec a.1 b.1) as [Heq|Hne].
  - rewrite Z.leb_le. lia.
  - rewrite Z.ltb_lt. lia.
Qed.

Lemma Z_Z_le_total a b : Z_Z_le a b = false → Z_Z_le b a = true.
Proof.
  intros Hab. apply Z_Z_le_spec.
  destruct (Z_Z_le a b) eqn:Hab'; [done|].
  assert (¬ (a.1 < b.1 ∨ (a.1 = b.1 ∧ a.2 ≤ b.2))%Z) by (rewrite <-Z_Z_le_spec; congruence).
  lia.
Qed.

Lemma Z_Z_le_trans a b c :
  Z_Z_le a b = true → Z_Z_le b c = true → Z_Z_le a c = true.
Proof. rewrite !Z_Z_le_spec. lia. Qed.

(** ** The selection pass *)

Section SchedulerFacts.
Context {order : IterOrder}.

Lemma elem_of_set_iter (s : gset Literal) (l : Literal) : l ∈ set_iter s ↔ l ∈ s.
Proof. by rewrite set_iter_perm, elem_of_elements. Qed.

Lemma elem_of_py_iter (body : Body) (l : Literal) : l ∈ py_iter body ↔ l ∈ py_set body.
Proof.
  destruct body as [s|t]; simpl.
  - apply elem_of_set_iter.
  - by rewrite elem_of_list_to_set.
Qed.

(** What is selected was already selected or comes from the pool with its
    inputs grounded. *)
Lemma select_literal_Some head grounded selected pool l :
  select_literal head grounded selected pool = Some l →
  selected = Some l ∨ (l ∈ pool ∧ inputs l ⊆ grounded).
Proof.
  revert selected. induction pool as [|x pool IH]; intros selected; simpl.
  - auto.
  - case_bool_decide as Hgen.
    { intros [= <-]. right. split; [left|].
      rewrite (generator_no_inputs x Hgen). apply empty_subseteq. }
    case_bool_decide as Hsub; simpl.
    + destruct (non_recursive head x).
      { intros [= <-]. right. split; [left|done]. }
      destruct selected as [s|]; intros Hsel.
      * apply IH in Hsel as [?|[? ?]]; [by left|right; split; [by right|done]].
      * apply IH in Hsel as [[= <-]|[? ?]]; right; (split; [|done]); [left|by right].
    + intros Hsel. apply IH in Hsel as [?|[? ?]]; [by left|right; split; [by right|done]].
Qed.

(** Nothing is selected exactly when no literal of the pool is eligible. *)
Lemma select_literal_None head grounded selected pool :
  select_literal head grounded selected pool = None ↔
  selected = None ∧ ∀ l, l ∈ pool → ¬ is_generator l ∧ ¬ inputs l ⊆ grounded.
Proof.
  revert selected. induction pool as [|x pool IH]; intros selected; simpl.
  - split; [intros ->; split; [done|]; intros l Hl; inversion Hl|by intros [-> _]].
  - case_bool_decide as Hgen.
    { split; [done|]. intros [_ Hall]. destruct (Hall x) as [Hng _]; [left|]. done. }
    case_bool_decide as Hsub; simpl.
    + destruct (non_recursive head x).
      { split; [done|]. intros [_ Hall]. destruct (Hall x) as [_ Hns]; [left|]. done. }
      destruct selected as [s|]; rewrite IH.
      * split; [by intros [? _]|by intros [? _]].
      * split; [by intros [? _]|]. intros [_ Hall]. destruct (Hall x) as [_ Hns]; [left|]. done.
    + rewrite IH. split; intros [-> Hall]; (split; [done|]); intros l Hl.
      * apply elem_of_cons in Hl as [->|Hl]; [done|by apply Hall].
      * apply Hall. by right.
Qed.

(** ** The scheduling loop *)

Lemma selected_in_pool head grounded (body_literals : gset Literal) l :
  select_literal head grounded None (set_iter body_literals) = Some l →
  l ∈ body_literals ∧ inputs l ⊆ grounded.
Proof.
  intros Hsel. apply select_literal_Some in Hsel as [?|[Hin Hsub]]; [done|].
  by rewrite elem_of_set_iter in Hin.
Qed.

Lemma not_elem_of_remove (body_literals : gset Literal) l :
  l ∉ body_literals ∖ {[l]}.
Proof.
  intros Hin. apply elem_of_difference in Hin as [_ Hnot].
  by apply Hnot, elem_of_singleton.
Qed.

Lemma elements_remove (body_literals : gset Literal) l :
  l ∈ body_literals → elements body_literals ≡ₚ l :: elements (body_literals ∖ {[l]}).
Proof.
  intros Hin. rewrite <-elements_union_singleton by apply not_elem_of_remove.
  by rewrite <-union_difference_singleton_L.
Qed.

Lemma size_remove (body_literals : gset Literal) l :
  l ∈ body_literals → size body_literals = S (size (body_literals ∖ {[l]})).
Proof.
  intros Hin. rewrite (union_difference_singleton_L l body_literals Hin) at 1.
  rewrite size_union, size_singleton; [done|].
  apply disjoint_singleton_l, not_elem_of_remove.
Qed.

(** The loop always finishes within [size body_literals] iterations. *)
Lemma order_loop_total fuel rule head grounded body_literals ordered_body :
  size body_literals ≤ fuel →
  is_Some (order_loop fuel rule head grounded body_literals ordered_body).
Proof.
  revert grounded body_literals ordered_body.
  induction fuel as [|fuel IH]; intros grounded body_literals ordered_body Hfuel; simpl.
  - case_bool_decide as Hempty; [done|].
    assert (size body_literals ≠ 0); [|lia].
    intros Hzero. apply Hempty, leibniz_equiv. by apply size_empty_iff.
  - case_bool_decide as Hempty; [done|].
    destruct (select_literal _ _ _ _) as [sel|] eqn:Hsel; [|done].
    apply selected_in_pool in Hsel as [Hin _].
    apply IH. apply size_remove in Hin. lia.
Qed.

(** What a successful run appends: the remaining literals, each one once,
    in a grounding-safe order. *)
Lemma order_loop_Ok fuel rule head grounded body_literals ordered_body final :
  order_loop fuel rule head grounded body_literals ordered_body = Some (Ok final) →
  ∃ appended, final = ordered_body ++ appended
    ∧ appended ≡ₚ elements body_literals
    ∧ grounding_safe grounded appended.
Proof.
  revert grounded body_literals ordered_body.
  induction fuel as [|fuel IH]; intros grounded body_literals ordered_body; simpl.
  - case_bool_decide as Hempty; [|done].
    intros [= <-]. exists []. rewrite app_nil_r, Hempty, elements_empty. done.
  - case_bool_decide as Hempty.
    { intros [= <-]. exists []. rewrite app_nil_r, Hempty, elements_empty. done. }
    destruct (select_literal _ _ _ _) as [sel|] eqn:Hsel; [|done].
    apply selected_in_pool in Hsel as [Hin Hsub].
    intros Hrun. apply IH in Hrun as (appended & -> & Hperm & Hsafe).
    exists (sel :: appended). split; [by rewrite <-app_assoc|]. split.
    + rewrite (elements_remove _ _ Hin). by constructor.
    + done.
Qed.

(** The only exception of the loop, and its text. *)
Lemma order_loop_Raise fuel rule head grounded body_literals ordered_body e :
  order_loop fuel rule head grounded body_literals ordered_body = Some (Raise e) →
  e = ValueError (grounding_message rule).
Proof.
  revert grounded body_literals ordered_body.
  induction fuel as [|fuel IH]; intros grounded body_literals ordered_body; simpl.
  - case_bool_decide; done.
  - case_bool_decide; [done|].
    destruct (select_literal _ _ _ _) as [sel|]; [apply IH|by intros [= <-]].
Qed.

(** An iteration at which no remaining literal is eligible raises. *)
Lemma order_loop_stuck fuel rule head grounded body_literals ordered_body :
  body_literals ≠ ∅ →
  (∀ l, l ∈ body_literals → ¬ is_generator l ∧ ¬ inputs l ⊆ grounded) →
  order_loop (S fuel) rule head grounded body_literals ordered_body
  = Some (Raise (ValueError (grounding_message rule))).
Proof.
  intros Hne Hall. simpl. rewrite bool_decide_eq_false_2 by done.
  assert (select_literal head grounded None (set_iter body_literals) = None) as ->; [|done].
  apply select_literal_None. split; [done|].
  intros l Hl. apply Hall. by apply elem_of_set_iter.
Qed.

(** Index form of [grounding_safe]. *)
Lemma grounding_safe_lookup grounded ordered_body i literal :
  grounding_safe grounded ordered_body →
  ordered_body !! i = Some literal →
  inputs literal ⊆ grounded ∪ ⋃ (outputs <$> take i ordered_body).
Proof.
  revert grounded i. induction ordered_body as [|x rest IH]; intros grounded i; simpl.
  - done.
  - intros [Hx Hrest]. destruct i as [|i]; simpl.
    + intros [= <-]. by apply union_subseteq_l'.
    + intros Hi. pose proof (IH _ _ Hrest Hi) as Hsub.
      by rewrite (assoc_L (∪)).
Qed.

(** The guard [head.inputs == []] never holds: the left side is a frozenset. *)
Lemma head_guard_false (h : Literal) : py_eq (PyFrozenset (inputs h)) (PyList []) = false.
Proof. reflexivity. Qed.

(** [order_rule] under the mode-directed policy is the loop started from
    the inputs of the head. *)
Lemma order_rule_mode_directed head body settings :
  mode_directed settings →
  order_rule (head, body) settings =
  match order_loop (size (py_set body)) (head, body) head (∅ ∪ head_inputs head)
          (py_set body) [] with
  | None => None
  | Some (Raise e) => Some (Raise e)
  | Some (Ok ordered_body) => Some (Ok (head, BodyTuple ordered_body))
  end.
Proof.
  intros Hmode. unfold order_rule.
  assert (∀ X, match settings with
               | Some st => if datalog st then order_rule_datalog (head, body) st else X
               | None => X
               end = X) as ->.
  { intros X. destruct settings as [st|]; [|done]. simpl in Hmode. by rewrite Hmode. }
  destruct head as [h|]; simpl; [done|].
  by rewrite (left_id_L ∅ (∪)).
Qed.

(** ** The recall-directed loop *)

Lemma datalog_choice settings seen_vars (body_literals : gset Literal) :
  body_literals ≠ ∅ →
  ∃ l, l ∈ body_literals ∧
    match find (λ literal, bool_decide (list_to_set (arguments literal) ⊆ seen_vars))
            (set_iter body_literals) with
    | Some literal => Ok literal
    | None =>
      match sorted (tmp_score settings seen_vars) Z.leb (set_iter body_literals) with
      | x :: _ => Ok x
      | [] => Raise (IndexError "list index out of range")
      end
    end = Ok l.
Proof.
  intros Hne. destruct (find _ _) as [l|] eqn:Hfind.
  - exists l. split; [|done]. apply find_some in Hfind as [Hin _].
    by apply list_elem_of_In, elem_of_set_iter in Hin.
  - pose proof (sorted_perm (tmp_score settings seen_vars) Z.leb (set_iter body_literals)) as Hperm.
    destruct (sorted _ _ _) as [|x xs].
    + exfalso. apply Hne, leibniz_equiv, elements_empty_iff.
      apply Permutation_nil_l in Hperm.
      apply Permutation_nil_r. by rewrite <-set_iter_perm, <-Hperm.
    + exists x. split; [|done]. apply elem_of_set_iter. rewrite <-Hperm. left.
Qed.

Lemma datalog_loop_total fuel settings seen_vars body_literals ordered_body :
  size body_literals ≤ fuel →
  is_Some (datalog_loop fuel settings seen_vars body_literals ordered_body).
Proof.
  revert seen_vars body_literals ordered_body.
  induction fuel as [|fuel IH]; intros seen_vars body_literals ordered_body Hfuel; simpl.
  - case_bool_decide as Hempty; [done|].
    assert (size body_literals ≠ 0); [|lia].
    intros Hzero. apply Hempty, leibniz_equiv. by apply size_empty_iff.
  - case_bool_decide as Hempty; [done|].
    destruct (datalog_choice settings seen_vars body_literals Hempty) as (l & Hin & ->).
    apply IH. apply size_remove in Hin. lia.
Qed.

(** The recall-directed loop never raises and appends the remaining
    literals, each one once. *)
Lemma datalog_loop_result fuel settings seen_vars body_literals ordered_body r :
  datalog_loop fuel settings seen_vars body_literals ordered_body = Some r →
  ∃ appended, r = Ok (ordered_body ++ appended) ∧ appended ≡ₚ elements body_literals.
Proof.
  revert seen_vars body_literals ordered_body.
  induction fuel as [|fuel IH]; intros seen_vars body_literals ordered_body; simpl.
  - case_bool_decide as Hempty; [|done].
    intros [= <-]. exists []. by rewrite app_nil_r, Hempty, elements_empty.
  - case_bool_decide as Hempty.
    { intros [= <-]. exists []. by rewrite app_nil_r, Hempty, elements_empty. }
    destruct (datalog_choice settings seen_vars body_literals Hempty) as (l & Hin & ->).
    intros Hrun. apply IH in Hrun as (appended & -> & Hperm).
    exists (l :: appended). split; [by rewrite <-app_assoc|].
    rewrite (elements_remove _ _ Hin). by constructor.
Qed.

(** ** [order_rule] as a whole *)

(** [order_rule] returns or raises: the fuel it gives its loop suffices. *)
Lemma order_rule_total rule settings : is_Some (order_rule rule settings).
Proof.
  destruct rule as [head body].
  destruct settings as [st|]; [destruct (datalog st) eqn:Hd|].
  - unfold order_rule. rewrite Hd. unfold order_rule_datalog.
    destruct (datalog_loop_total (size (py_set body)) st
      (match head with Some h => ∅ ∪ list_to_set (arguments h) | None => ∅ end)
      (py_set body) [] (le_n _)) as [r Hr].
    rewrite Hr. by destruct r.
  - rewrite order_rule_mode_directed by done.
    destruct (order_loop_total (size (py_set body)) (head, body) head
      (∅ ∪ head_inputs head) (py_set body) [] (le_n _)) as [r Hr].
    rewrite Hr. by destruct r.
  - rewrite order_rule_mode_directed by done.
    destruct (order_loop_total (size (py_set body)) (head, body) head
      (∅ ∪ head_inputs head) (py_set body) [] (le_n _)) as [r Hr].
    rewrite Hr. by destruct r.
Qed.

(** A successful run, under either policy, returns the head with a tuple
    that lists the members of the body, each one once. *)
Lemma order_rule_Ok head body settings r :
  order_rule (head, body) settings = Some (Ok r) →
  ∃ ordered_body, r = (head, BodyTuple ordered_body)
    ∧ ordered_body ≡ₚ elements (py_set body).
Proof.
  destruct settings as [st|]; [destruct (datalog st) eqn:Hd|].
  - unfold order_rule. rewrite Hd. unfold order_rule_datalog.
    destruct (datalog_loop _ _ _ _ _) as [r'|] eqn:Hrun; [|done].
    apply datalog_loop_result in Hrun as (appended & -> & Hperm).
    intros [= <-]. by exists appended.
  - rewrite order_rule_mode_directed by done.
    destruct (order_loop _ _ _ _ _ _) as [[ob|e]|] eqn:Hrun; [|done..].
    apply order_loop_Ok in Hrun as (appended & -> & Hperm & _).
    intros [= <-]. by exists appended.
  - rewrite order_rule_mode_directed by done.
    destruct (order_loop _ _ _ _ _ _) as [[ob|e]|] eqn:Hrun; [|done..].
    apply order_loop_Ok in Hrun as (appended & -> & Hperm & _).
    intros [= <-]. by exists appended.
Qed.

(** Under the mode-directed policy the tuple is grounding-safe from the
    inputs of the head. *)
Lemma order_rule_Ok_safe head body settings r :
  mode_directed settings →
  order_rule (head, body) settings = Some (Ok r) →
  ∃ ordered_body, r = (head, BodyTuple ordered_body)
    ∧ ordered_body ≡ₚ elements (py_set body)
    ∧ grounding_safe (head_inputs head) ordered_body.
Proof.
  intros Hmode. rewrite order_rule_mode_directed by done.
  destruct (order_loop _ _ _ _ _ _) as [[ob|e]|] eqn:Hrun; [|done..].
  apply order_loop_Ok in Hrun as (appended & -> & Hperm & Hsafe).
  intros [= <-]. exists appended. rewrite (left_id_L ∅ (∪)) in Hsafe. done.
Qed.

(** The text of every exception [order_rule] raises. *)
Lemma order_rule_Raise rule settings e :
  order_rule rule settings = Some (Raise e) →
  e = ValueError ("None in clause " +:+ format_rule rule +:+ " could not be grounded").
Proof.
  destruct rule as [head body].
  destruct settings as [st|]; [destruct (datalog st) eqn:Hd|].
  - unfold order_rule. rewrite Hd. unfold order_rule_datalog.
    destruct (datalog_loop _ _ _ _ _) as [r'|] eqn:Hrun; [|done].
    apply datalog_loop_result in Hrun as (appended & -> & Hperm). done.
  - rewrite order_rule_mode_directed by done.
    destruct (order_loop _ _ _ _ _ _) as [[ob|e']|] eqn:Hrun; [done| |done].
    apply order_loop_Raise in Hrun as ->. by intros [= <-].
  - rewrite order_rule_mode_directed by done.
    destruct (order_loop _ _ _ _ _ _) as [[ob|e']|] eqn:Hrun; [done| |done].
    apply order_loop_Raise in Hrun as ->. by intros [= <-].
Qed.

(** A body none of whose literals can start raises. *)
Lemma order_rule_stuck head body settings :
  mode_directed settings →
  py_set body ≠ ∅ →
  (∀ l, l ∈ py_set body → ¬ is_generator l ∧ ¬ inputs l ⊆ head_inputs head) →
  order_rule (head, body) settings
  = Some (Raise (ValueError (grounding_message (head, body)))).
Proof.
  intros Hmode Hne Hall. rewrite order_rule_mode_directed by done.
  destruct (size (py_set body)) as [|n] eqn:Hsize.
  { exfalso. apply Hne, leibniz_equiv. by apply size_empty_iff. }
  rewrite order_loop_stuck; [done..|].
  intros l Hl. rewrite (left_id_L ∅ (∪)). by apply Hall.
Qed.

Lemma set_iter_singleton (l : Literal) : set_iter {[l]} = [l].
Proof.
  apply Permutation_singleton_r. by rewrite set_iter_perm, elements_singleton.
Qed.

Lemma grounding_safe_elem grounded ordered_body literal :
  grounding_safe grounded ordered_body →
  literal ∈ ordered_body →
  inputs literal ⊆ grounded ∪ ⋃ (outputs <$> ordered_body).
Proof.
  intros Hsafe Hin. apply list_elem_of_lookup in Hin as [i Hi].
  pose proof (grounding_safe_lookup _ _ _ _ Hsafe Hi) as Hsub.
  intros x Hx. apply Hsub in Hx. apply elem_of_union in Hx as [Hx|Hx]; [by apply elem_of_union; left|].
  apply elem_of_union. right.
  apply elem_of_union_list in Hx as (X & HX & Hx).
  apply elem_of_union_list. exists X. split; [|done].
  apply list_elem_of_fmap in HX as (l & -> & Hl).
  apply list_elem_of_fmap. exists l. split; [done|].
  by eapply subseteq_take.
Qed.

End SchedulerFacts.

(** ** The scheduler: the properties of the specification *)

(** C1. Grounding safety: in the tuple the mode-directed scheduler returns,
    the inputs of every literal lie in the inputs of the head united with
    the outputs of the literals strictly before it. *)
Theorem order_rule_grounding_safe `{order : IterOrder} head body settings r :
  mode_directed settings →
  order_rule (head, body) settings = Some (Ok r) →
  ∃ ordered_body, r = (head, BodyTuple ordered_body) ∧
    ∀ i literal, ordered_body !! i = Some literal →
      inputs literal ⊆ head_inputs head ∪ ⋃ (outputs <$> take i ordered_body).
Proof.
  intros Hmode Hrun.
  destruct (order_rule_Ok_safe head body settings r Hmode Hrun)
    as (ordered_body & -> & _ & Hsafe).
  exists ordered_body. split; [done|].
  intros i literal Hi. by eapply grounding_safe_lookup.
Qed.

Lemma order_rule_grounding_safe_witness :
  ∃ ordered_body,
    (Some Examples.p_A, BodyTuple [Examples.q_AB; Examples.r_BC])
    = (Some Examples.p_A, BodyTuple ordered_body) ∧
    ∀ i literal, ordered_body !! i = Some literal →
      inputs literal
      ⊆ head_inputs (Some Examples.p_A) ∪ ⋃ (outputs <$> take i ordered_body).
Proof.
  apply (order_rule_grounding_safe (order := elements_order) (Some Examples.p_A)
           (BodySet {[Examples.r_BC; Examples.q_AB]}) None).
  - exact I.
  - vm_compute. reflexivity.
Defined.

(** C2. Permutation: the tuple a successful scheduling returns lists the
    literals of the original body, none omitted and none twice. *)
Theorem order_rule_permutation `{order : IterOrder} head (s : gset Literal) settings r :
  order_rule (head, BodySet s) settings = Some (Ok r) →
  ∃ ordered_body, r = (head, BodyTuple ordered_body)
    ∧ ordered_body ≡ₚ elements s
    ∧ NoDup ordered_body
    ∧ ∀ literal, literal ∈ ordered_body ↔ literal ∈ s.
Proof.
  intros Hrun. apply order_rule_Ok in Hrun as (ordered_body & -> & Hperm).
  simpl in Hperm. exists ordered_body. split; [done|]. split; [done|]. split.
  - rewrite Hperm. apply NoDup_elements.
  - intros literal. by rewrite Hperm, elem_of_elements.
Qed.

Lemma order_rule_permutation_witness :
  ∃ ordered_body,
    (Some Examples.p_A, BodyTuple [Examples.q_AB; Examples.r_BC])
    = (Some Examples.p_A, BodyTuple ordered_body)
    ∧ ordered_body ≡ₚ elements ({[Examples.r_BC; Examples.q_AB]} : gset Literal)
    ∧ NoDup ordered_body
    ∧ ∀ literal, literal ∈ ordered_body
        ↔ literal ∈ ({[Examples.r_BC; Examples.q_AB]} : gset Literal).
Proof.
  apply (order_rule_permutation (order := elements_order) (Some Examples.p_A)
           {[Examples.r_BC; Examples.q_AB]} None).
  vm_compute. reflexivity.
Defined.

(** The same for a body handed over as a tuple without repetition. *)
Lemma order_rule_tuple_permutation `{order : IterOrder} head (t : list Literal) settings r :
  NoDup t →
  order_rule (head, BodyTuple t) settings = Some (Ok r) →
  ∃ ordered_body, r = (head, BodyTuple ordered_body) ∧ ordered_body ≡ₚ t.
Proof.
  intros Hnodup Hrun. apply order_rule_Ok in Hrun as (ordered_body & -> & Hperm).
  exists ordered_body. split; [done|]. rewrite Hperm. simpl.
  by apply elements_list_to_set.
Qed.

(** Whatever the head, a rule whose body is a frozenset never comes back
    as it went in. *)
Lemma order_rule_never_unchanged `{order : IterOrder} head (s : gset Literal) settings :
  order_rule (head, BodySet s) settings ≠ Some (Ok (head, BodySet s)).
Proof.
  intros Hrun. by apply order_rule_Ok in Hrun as (ordered_body & [=] & _).
Qed.

(** C4. A head without inputs does not make [order_rule] return the rule
    as it is: the guard [head.inputs == []] compares a frozenset with a
    list and never holds.  The rule [p(A) :- q(B)], with [A] an output and
    [B] an input, has a head without inputs, and scheduling it raises. *)
Theorem order_rule_head_without_inputs `{order : IterOrder} :
  (∀ h, py_eq (PyFrozenset (inputs h)) (PyList []) = false)
  ∧ head_inputs (Some Examples.p_out_A) = ∅
  ∧ order_rule (Some Examples.p_out_A, BodySet {[Examples.q_B]}) None
    = Some (Raise (ValueError "None in clause p(A):- q(B). could not be grounded")).
Proof.
  split; [exact head_guard_false|]. split; [reflexivity|].
  rewrite order_rule_stuck.
  - unfold grounding_message, format_rule. simpl. by rewrite set_iter_singleton.
  - exact I.
  - simpl. apply non_empty_singleton_L.
  - simpl. intros l Hl. apply elem_of_singleton in Hl as ->. split.
    + unfold is_generator. vm_compute. discriminate.
    + intros Hsub. assert ("B" ∈ head_inputs (Some Examples.p_out_A)) as Hin.
      { apply Hsub. vm_compute. reflexivity. }
      revert Hin. vm_compute. discriminate.
Qed.

(** C6. The diagnostic of the grounding error.  Whatever rule fails, the
    exception is a [ValueError] whose text starts with the word [None]
    where the stuck literal is meant to stand, followed by the rule as
    [format_rule] prints it: the text names the rule and no literal. *)
Theorem grounding_error_message `{order : IterOrder} rule settings e :
  order_rule rule settings = Some (Raise e) →
  e = ValueError ("None in clause " +:+ format_rule rule +:+ " could not be grounded").
Proof. apply order_rule_Raise. Qed.

Lemma grounding_error_message_witness :
  order_rule (order := elements_order)
    (Some Examples.p_A, BodyTuple [Examples.q_AB; Examples.s_D]) None
  = Some (Raise (ValueError
      "None in clause p(A):- q(A,B),s(D). could not be grounded"))
  ∧ ValueError "None in clause p(A):- q(A,B),s(D). could not be grounded"
    = ValueError ("None in clause "
        +:+ format_rule (order := elements_order)
              (Some Examples.p_A, BodyTuple [Examples.q_AB; Examples.s_D])
        +:+ " could not be grounded").
Proof.
  split.
  - vm_compute. reflexivity.
  - apply (grounding_error_message (order := elements_order)
             (Some Examples.p_A, BodyTuple [Examples.q_AB; Examples.s_D]) None).
    vm_compute. reflexivity.
Defined.

(** The stuck literal of that rule is [s(D)]: [q(A,B)] is scheduled, then
    nothing grounds [D].  This holds in every iteration order. *)
Lemma grounding_error_after_progress `{order : IterOrder} :
  order_rule (Some Examples.p_A, BodyTuple [Examples.q_AB; Examples.s_D]) None
  = Some (Raise (ValueError
      "None in clause p(A):- q(A,B),s(D). could not be grounded")).
Proof.
  destruct (order_rule_total (Some Examples.p_A, BodyTuple [Examples.q_AB; Examples.s_D]) None)
    as [[r|e] Hrun].
  - exfalso.
    destruct (order_rule_Ok_safe _ _ None _ I Hrun) as (ordered_body & -> & Hperm & Hsafe).
    assert (∀ l, l ∈ ordered_body → l = Examples.q_AB ∨ l = Examples.s_D) as Hmem.
    { intros l. rewrite Hperm, elem_of_elements. unfold py_set.
      rewrite elem_of_list_to_set, !elem_of_cons.
      intros [?|[?|Hl]]; [by left|by right|]. inversion Hl. }
    assert (Examples.s_D ∈ ordered_body) as Hin.
    { rewrite Hperm, elem_of_elements. unfold py_set.
      rewrite elem_of_list_to_set, !elem_of_cons. right; left; reflexivity. }
    pose proof (grounding_safe_elem _ _ _ Hsafe Hin) as Hsub.
    assert ("D" ∈ head_inputs (Some Examples.p_A) ∪ ⋃ (outputs <$> ordered_body)) as HD.
    { apply Hsub. vm_compute. reflexivity. }
    apply elem_of_union in HD as [HD|HD].
    + revert HD. vm_compute. discriminate.
    + apply elem_of_union_list in HD as (X & HX & HD).
      apply list_elem_of_fmap in HX as (l & -> & Hl).
      destruct (Hmem l Hl) as [-> | ->]; revert HD; vm_compute; discriminate.
  - rewrite Hrun, (order_rule_Raise _ _ _ Hrun). vm_compute. reflexivity.
Qed.

(** ** Subsumption *)

(** What [rule_subsumes] decides. *)
Lemma rule_subsumes_spec (r1 r2 : ReducedRule) :
  rule_subsumes r1 r2 = true ↔ (r1.1 = None ∨ r2.1 ≠ None) ∧ r1.2 ⊆ r2.2.
Proof.
  destruct r1 as [h1 b1], r2 as [h2 b2]. unfold rule_subsumes. simpl.
  destruct h1 as [s1|], h2 as [s2|]; simpl; rewrite ?bool_decide_eq_true.
  - split; [intros Hsub; split; [by right|done]|by intros [_ ?]].
  - split; [done|]. intros [[?|?] _]; done.
  - split; [intros Hsub; split; [by left|done]|by intros [_ ?]].
  - split; [intros Hsub; split; [by left|done]|by intros [_ ?]].
Qed.

Lemma theory_subsumes_spec (prog1 prog2 : list ReducedRule) :
  theory_subsumes prog1 prog2 = true ↔
  ∀ r2, r2 ∈ prog2 → ∃ r1, r1 ∈ prog1 ∧ rule_subsumes r1 r2 = true.
Proof.
  unfold theory_subsumes. rewrite forallb_forall. split.
  - intros Hall r2 Hr2. apply list_elem_of_In, Hall, existsb_exists in Hr2 as (r1 & Hr1 & Hsub).
    exists r1. by rewrite list_elem_of_In.
  - intros Hall r2 Hr2. apply existsb_exists.
    apply list_elem_of_In, Hall in Hr2 as (r1 & Hr1 & Hsub).
    exists r1. by rewrite <-list_elem_of_In.
Qed.

(** C3, as the specification words it, fails: a rule with a head and a
    constraint with the same body.  The head condition of the specification
    holds and the body is contained, yet [rule_subsumes] answers no. *)
Lemma rule_subsumes_head_over_constraint :
  let r1 : ReducedRule := (Some ("p", ["A"]), {[("q", ["A"])]}) in
  let r2 : ReducedRule := (None, {[("q", ["A"])]}) in
  ¬ (rule_subsumes r1 r2 = true ↔ (r1.1 ≠ None ∨ r2.1 = None) ∧ r1.2 ⊆ r2.2).
Proof.
  intros r1 r2 [_ Hclaim].
  assert (rule_subsumes r1 r2 = true) as Hsub; [|by vm_compute in Hsub].
  apply Hclaim. split; [by left|done].
Qed.

(** C3, amended.  [rule_subsumes r1 r2] holds exactly when [r1] has no
    head or [r2] has one too, and the body of [r1] is contained in the body of
    [r2]; [theory_subsumes] asks, for every rule of the second program, for
    a rule of the first that subsumes it.  [p(A) :- q(A)] subsumes
    [p(A) :- q(A), r(A)], and not the other way round. *)
Theorem subsumption_spec :
  (∀ r1 r2 : ReducedRule,
     rule_subsumes r1 r2 = true ↔ (r1.1 = None ∨ r2.1 ≠ None) ∧ r1.2 ⊆ r2.2)
  ∧ (∀ prog1 prog2 : list ReducedRule,
       theory_subsumes prog1 prog2 = true ↔
       ∀ r2, r2 ∈ prog2 → ∃ r1, r1 ∈ prog1 ∧ rule_subsumes r1 r2 = true)
  ∧ (let general : ReducedRule := (Some ("p", ["A"]), {[("q", ["A"])]}) in
     let special : ReducedRule :=
       (Some ("p", ["A"]), {[("q", ["A"]); ("r", ["A"])]}) in
     theory_subsumes [general] [special] = true
     ∧ theory_subsumes [special] [general] = false).
Proof.
  split; [exact rule_subsumes_spec|]. split; [exact theory_subsumes_spec|].
  split; vm_compute; reflexivity.
Qed.

(** ** Space enumerator *)

(** C8. Simple mode: one entry per literal count [1 .. max_size - 1], in
    ascending order, each with the configured [max_vars] and [max_rules]
    and without estimate; for [max_size = 5] the four entries with literal
    counts 1, 2, 3, 4. *)
Theorem bias_order_simple (settings : Settings) (max_size : Z) :
  no_bias settings = false →
  order_space settings = false →
  ∃ out, bias_order settings max_size = Ok (settings, out)
    ∧ length out = Z.to_nat (max_size - 1)
    ∧ (∀ (i : nat) e, out !! i = Some e ↔
         e = ((1 + Z.of_nat i)%Z, max_vars settings, max_rules settings, None)
         ∧ (1 + Z.of_nat i < max_size)%Z)
    ∧ (max_size = 5%Z →
       out = [(1%Z, max_vars settings, max_rules settings, None);
              (2%Z, max_vars settings, max_rules settings, None);
              (3%Z, max_vars settings, max_rules settings, None);
              (4%Z, max_vars settings, max_rules settings, None)]).
Proof.
  intros Hbias Hspace. unfold bias_order. rewrite Hbias, Hspace. simpl.
  eexists. split; [reflexivity|]. split; [|split].
  - unfold range. by rewrite length_fmap, length_seqZ.
  - intros i e. unfold range. rewrite list_lookup_fmap.
    destruct (seqZ 1 (max_size - 1) !! i) as [n|] eqn:Hi; simpl.
    + apply lookup_seqZ in Hi as [-> Hlt]. split.
      * intros [= <-]. split; [done|lia].
      * by intros [-> _].
    + split; [done|]. intros [_ Hlt].
      assert (seqZ 1 (max_size - 1) !! i = Some (1 + Z.of_nat i)%Z) as Hi'.
      { apply lookup_seqZ. split; [done|lia]. }
      congruence.
  - intros ->. reflexivity.
Qed.

Lemma bias_order_simple_witness :
  let settings := mkSettings false ∅ false false 6 2 6 3 ∅ None in
  ∃ out, bias_order settings 5 = Ok (settings, out)
    ∧ length out = Z.to_nat (5 - 1)
    ∧ (∀ (i : nat) e, out !! i = Some e ↔
         e = ((1 + Z.of_nat i)%Z, max_vars settings, max_rules settings, None)
         ∧ (1 + Z.of_nat i < 5)%Z)
    ∧ (5%Z = 5%Z →
       out = [(1%Z, max_vars settings, max_rules settings, None);
              (2%Z, max_vars settings, max_rules settings, None);
              (3%Z, max_vars settings, max_rules settings, None);
              (4%Z, max_vars settings, max_rules settings, None)]).
Proof.
  intros settings. apply (bias_order_simple settings 5); reflexivity.
Defined.

Example simple_mode_max_5 :
  let settings := mkSettings false ∅ false false 6 2 6 3 ∅ None in
  bias_order settings 5
  = Ok (settings, [(1%Z, 6%Z, 2%Z, None); (2%Z, 6%Z, 2%Z, None);
                   (3%Z, 6%Z, 2%Z, None); (4%Z, 6%Z, 2%Z, None)]).
Proof. reflexivity. Qed.

(** An invariant of the accumulator survives a [for] loop. *)
Lemma for_each_invariant {A S} (P : S → Prop) (xs : list A)
    (body : A → S → result S) (acc r : S) :
  (∀ x s s', P s → body x s = Ok s' → P s') →
  P acc → for_each xs body acc = Ok r → P r.
Proof.
  intros Hbody. revert acc. induction xs as [|x xs IH]; intros acc Hacc; simpl.
  - by intros [= <-].
  - destruct (body x acc) as [acc'|e] eqn:Hx; simpl; [|done].
    apply IH. by eapply Hbody.
Qed.

(** The sweep never records an estimate of zero. *)
Lemma vars_loop_nonzero predicates arity size_rules size_literals vars ret r :
  Forall (λ tup : Z * Z * Z * Z, tup.2 ≠ 0%Z) ret →
  vars_loop predicates arity size_rules size_literals vars ret = Ok r →
  Forall (λ tup : Z * Z * Z * Z, tup.2 ≠ 0%Z) r.
Proof.
  revert ret. induction vars as [|size_vars vars IH]; intros ret Hret; simpl.
  - by intros [= <-].
  - destruct (size_vars >? size_literals * arity - 1)%Z; [by intros [= <-]|].
    destruct (pow size_vars arity) as [p|e]; simpl; [|done].
    destruct (comb (predicates * p) size_literals) as [hspace|e]; simpl; [|done].
    destruct (Z.eqb_spec hspace 0) as [Hzero|Hnz]; [by apply IH|].
    destruct ((size_rules >? 1)%Z && (size_literals <? 5)%Z); [by apply IH|].
    apply IH. apply Forall_app. split; [done|]. by repeat constructor.
Qed.

Lemma bias_sweep_nonzero settings ret :
  bias_sweep settings = Ok ret → Forall (λ tup : Z * Z * Z * Z, tup.2 ≠ 0%Z) ret.
Proof.
  unfold bias_sweep. apply for_each_invariant; [|constructor].
  intros size_rules s s' Hs. apply for_each_invariant; [|done].
  intros size_literals t t' Ht. by apply vars_loop_nonzero.
Qed.

(** A [for] loop whose body never raises does not raise. *)
Lemma for_each_returns {A S} (xs : list A) (body : A → S → result S) (acc : S) :
  (∀ x s, x ∈ xs → ∃ s', body x s = Ok s') → ∃ r, for_each xs body acc = Ok r.
Proof.
  revert acc. induction xs as [|x xs IH]; intros acc Hbody; simpl; [by eexists|].
  destruct (Hbody x acc) as [acc' ->]; [left|]. simpl.
  apply IH. intros y s Hy. apply Hbody. by right.
Qed.

Lemma vars_loop_returns predicates arity size_rules size_literals vars ret :
  (0 ≤ predicates)%Z → (0 ≤ arity)%Z → (0 ≤ size_literals)%Z →
  Forall (λ size_vars, 0 ≤ size_vars)%Z vars →
  ∃ r, vars_loop predicates arity size_rules size_literals vars ret = Ok r.
Proof.
  intros Hp Ha Hl Hvars. revert ret.
  induction Hvars as [|size_vars vars Hv _ IH]; intros ret; simpl; [by eexists|].
  destruct (size_vars >? size_literals * arity - 1)%Z; [by eexists|].
  unfold pow. destruct (Z.ltb_spec arity 0) as [?|_]; [lia|]. simpl.
  unfold comb.
  destruct (Z.ltb_spec (predicates * size_vars ^ arity) 0) as [Hneg|_].
  { pose proof (Z.pow_nonneg size_vars arity Hv). nia. }
  destruct (Z.ltb_spec size_literals 0) as [?|_]; [lia|]. simpl.
  destruct (_ =? 0)%Z; [apply IH|].
  destruct (_ && _); apply IH.
Qed.

(** With a non-negative arity, and a non-negative [max_vars] when the
    sweep starts there, [bias_order] returns a sequence. *)
Lemma bias_order_returns (settings : Settings) (max_size : Z) :
  (0 ≤ max_arity settings)%Z →
  no_bias settings = true ∨ (0 ≤ max_vars settings)%Z →
  ∃ r, bias_order settings max_size = Ok r.
Proof.
  intros Harity Hvars. unfold bias_order.
  destruct (negb _); [by eexists|].
  assert (∃ ret, bias_sweep settings = Ok ret) as [ret ->]; [|by eexists].
  unfold bias_sweep. apply for_each_returns. intros size_rules s _.
  apply for_each_returns. intros size_literals t Hlit.
  apply elem_of_seqZ in Hlit.
  apply vars_loop_returns; [lia|done|lia|].
  apply Forall_forall. intros size_vars Hin. apply elem_of_seqZ in Hin.
  destruct (no_bias settings); [lia|]. destruct Hvars as [?|?]; [done|lia].
Qed.

(** C7. With order-by-space on, the sequence is sorted by
    [(estimated_space, literal_count)]: of two entries the earlier one has
    the smaller estimate or, at equal estimates, the smaller or equal
    literal count, so the estimates never go down; and no entry has the
    estimate zero. *)
Theorem bias_order_by_space (settings settings' : Settings) (max_size : Z)
    (out : list (Z * Z * Z * option Z)) :
  order_space settings = true →
  bias_order settings max_size = Ok (settings', out) →
  (∀ (i j : nat) a b, i < j → out !! i = Some a → out !! j = Some b →
     ∃ space_a space_b, a.2 = Some space_a ∧ b.2 = Some space_b
       ∧ (space_a < space_b ∨ (space_a = space_b ∧ a.1.1.1 ≤ b.1.1.1))%Z
       ∧ (space_a ≤ space_b)%Z)
  ∧ (∀ e, e ∈ out → ∃ space, e.2 = Some space ∧ space ≠ 0%Z).
Proof.
  intros Hspace. unfold bias_order. rewrite Hspace, orb_true_r. simpl.
  destruct (bias_sweep settings) as [ret|e] eqn:Hsweep; simpl; [|done].
  intros [= _ <-]. split.
  - intros i j a b Hij. rewrite !list_lookup_fmap.
    destruct (sorted _ _ ret !! i) as [ta|] eqn:Hi; simpl; [|done].
    destruct (sorted _ _ ret !! j) as [tb|] eqn:Hj; simpl; [|done].
    intros [= <-] [= <-]. simpl. exists ta.2, tb.2. split; [done|]. split; [done|].
    pose proof (sorted_lookup_le _ _ Z_Z_le_total Z_Z_le_trans ret i j ta tb Hij Hi Hj) as Hle.
    apply Z_Z_le_spec in Hle. simpl in Hle. lia.
  - intros e He. apply list_elem_of_fmap in He as (tup & -> & Htup). simpl.
    exists tup.2. split; [done|].
    rewrite sorted_perm in Htup.
    apply bias_sweep_nonzero in Hsweep. rewrite Forall_forall in Hsweep.
    by apply Hsweep.
Qed.

Lemma bias_order_by_space_witness :
  let out := [(2, 1, 1, Some 1); (1, 1, 1, Some 2); (2, 2, 1, Some 28);
              (6, 2, 2, Some 28); (3, 2, 1, Some 56); (5, 2, 2, Some 56);
              (2, 3, 1, Some 153); (3, 3, 1, Some 816); (5, 3, 2, Some 8568);
              (6, 3, 2, Some 18564)]%Z in
  (∀ (i j : nat) a b, i < j → out !! i = Some a → out !! j = Some b →
     ∃ space_a space_b, a.2 = Some space_a ∧ b.2 = Some space_b
       ∧ (space_a < space_b ∨ (space_a = space_b ∧ a.1.1.1 ≤ b.1.1.1))%Z
       ∧ (space_a ≤ space_b)%Z)
  ∧ (∀ e, e ∈ out → ∃ space, e.2 = Some space ∧ space ≠ 0%Z).
Proof.
  intros out.
  apply (bias_order_by_space
           (mkSettings false ∅ true true 3 2 2 2 {[("q", 1%Z)]} None)
           (with_search_order
              (mkSettings false ∅ true true 3 2 2 2 {[("q", 1%Z)]} None) out)
           5 out).
  - reflexivity.
  - vm_compute. reflexivity.
Defined.

(** ** Canonical order of a program *)

(** C9. [order_prog] rearranges the program so that no recursive rule
    stands before a non-recursive one and, among rules of the same class,
    bodies never get shorter; a non-recursive rule therefore precedes a
    recursive one whatever their lengths, as does [p(A) :- q(A,B), r(B,C)]
    before [p(A) :- p(A)]. *)
Theorem order_prog_canonical `{order : IterOrder} (prog : list Rule) :
  order_prog prog ≡ₚ prog
  ∧ (∀ (i j : nat) ri rj, i < j →
       order_prog prog !! i = Some ri → order_prog prog !! j = Some rj →
       (rule_is_recursive ri = true → rule_is_recursive rj = true)
       ∧ (rule_is_recursive ri = rule_is_recursive rj → py_len ri.2 ≤ py_len rj.2))
  ∧ (∀ r1 r2, rule_is_recursive r1 = false → rule_is_recursive r2 = true →
       order_prog [r2; r1] = [r1; r2] ∧ order_prog [r1; r2] = [r1; r2])
  ∧ order_prog [Examples.rule_recursive; Examples.rule_two_literals]
    = [Examples.rule_two_literals; Examples.rule_recursive].
Proof.
  split; [apply sorted_perm|]. split; [|split].
  - intros i j ri rj Hij Hi Hj.
    pose proof (sorted_lookup_le _ _ bool_nat_le_total bool_nat_le_trans
                  prog i j ri rj Hij Hi Hj) as Hle.
    unfold bool_nat_le in Hle. simpl in Hle.
    destruct (rule_is_recursive ri), (rule_is_recursive rj); simpl in Hle;
      try done; apply Nat.leb_le in Hle; done.
  - intros r1 r2 H1 H2. unfold order_prog, sorted, bool_nat_le. simpl.
    rewrite H1, H2. simpl. done.
  - reflexivity.
Qed.

Lemma order_prog_canonical_witness :
  order_prog (order := elements_order)
    [Examples.rule_recursive; Examples.rule_two_literals]
  = [Examples.rule_two_literals; Examples.rule_recursive]
  ∧ order_prog (order := elements_order)
      [Examples.rule_two_literals; Examples.rule_recursive]
    = [Examples.rule_two_literals; Examples.rule_recursive].
Proof.
  destruct (order_prog_canonical (order := elements_order) []) as (_ & _ & Hpair & _).
  apply Hpair; reflexivity.
Defined.

(** ** Deduplication *)

Section DictFacts.
Context {K V : Type} `{EqDecision K}.

Lemma dict_set_keys (k : K) (v : V) (d : list (K * V)) :
  (dict_set k v d).*1 = if decide (k ∈ d.*1) then d.*1 else d.*1 ++ [k].
Proof.
  induction d as [|[k' v'] d IH]; [done|].
  cbn [dict_set]. destruct (decide (k' = k)) as [->|Hne]; rewrite !fmap_cons; cbn [fst].
  - rewrite decide_True; [done|]. left.
  - rewrite IH. destruct (decide (k ∈ d.*1)) as [Hin|Hnin].
    + rewrite decide_True; [done|]. by right.
    + rewrite decide_False; [done|]. intros [?|?]%elem_of_cons; congruence.
Qed.

Lemma dict_set_NoDup (k : K) (v : V) (d : list (K * V)) :
  NoDup d.*1 → NoDup (dict_set k v d).*1.
Proof.
  intros Hnodup. rewrite dict_set_keys. destruct (decide (k ∈ d.*1)); [done|].
  apply NoDup_app. split; [done|]. split; [|apply NoDup_singleton].
  intros x Hx Hk. apply list_elem_of_singleton in Hk as ->. done.
Qed.

Lemma dict_set_elem_of (k : K) (v : V) (d : list (K * V)) (k' : K) (v' : V) :
  (k', v') ∈ dict_set k v d → (k' = k ∧ v' = v) ∨ (k', v') ∈ d.
Proof.
  induction d as [|[k0 v0] d IH]; simpl.
  - intros Hin. apply list_elem_of_singleton in Hin as [= -> ->]. by left.
  - destruct (decide (k0 = k)) as [->|Hne].
    + intros [[= -> ->]|Hin]%elem_of_cons; [by left|right; by right].
    + intros [[= -> ->]|Hin]%elem_of_cons; [right; left|].
      destruct (IH Hin) as [?|?]; [by left|right; by right].
Qed.

Lemma dict_set_key_in (k : K) (v : V) (d : list (K * V)) (k' : K) :
  k' = k ∨ k' ∈ d.*1 → k' ∈ (dict_set k v d).*1.
Proof.
  rewrite dict_set_keys. destruct (decide (k ∈ d.*1)) as [Hin|Hnin].
  - by intros [->|?].
  - rewrite elem_of_app, list_elem_of_singleton. tauto.
Qed.

End DictFacts.

Section ReduceFacts.
Context {order : IterOrder}.

Lemma reduce_loop_invariant prog seen reduced final :
  reduced_invariant seen reduced →
  reduce_loop prog reduced = Ok final →
  reduced_invariant (seen ++ prog) final.
Proof.
  revert seen reduced. induction prog as [|rule prog IH]; intros seen reduced Hinv; simpl.
  - intros [= <-]. by rewrite app_nil_r.
  - destruct (reduce_key rule) as [k|e] eqn:Hk; simpl; [|done].
    intros Hrun. replace (seen ++ rule :: prog) with ((seen ++ [rule]) ++ prog)
      by (by rewrite <-app_assoc).
    apply (IH (seen ++ [rule]) (dict_set k rule reduced)); [|done].
    destruct Hinv as (Hnodup & Hvalues & Hkeys). split; [|split].
    + by apply dict_set_NoDup.
    + intros k' rule' Hin. apply dict_set_elem_of in Hin as [[-> ->]|Hin].
      * split; [|done]. apply elem_of_app. right. left.
      * destruct (Hvalues _ _ Hin) as [Hseen Hkey]. split; [|done].
        apply elem_of_app. by left.
    + intros rule' [Hseen|Hnew]%elem_of_app.
      * destruct (Hkeys _ Hseen) as (k' & Hkey & Hin). exists k'. split; [done|].
        apply dict_set_key_in. by right.
      * apply list_elem_of_singleton in Hnew as ->. exists k. split; [done|].
        apply dict_set_key_in. by left.
Qed.

Lemma reduce_loop_headed prog reduced :
  (∀ rule, rule ∈ prog → rule.1 ≠ None) → ∃ final, reduce_loop prog reduced = Ok final.
Proof.
  revert reduced. induction prog as [|[head body] prog IH]; intros reduced Hheads; simpl.
  - by eexists.
  - destruct head as [h|]; simpl.
    + apply IH. intros rule Hrule. apply Hheads. by right.
    + exfalso. by apply (Hheads (None, body)); [left|].
Qed.

(** Deduplication of a program whose rules all have a head: the result
    consists of rules of the program, holds a rule of every signature that
    occurs, and holds no signature twice. *)
Lemma reduce_prog_headed (prog : list Rule) :
  (∀ rule, rule ∈ prog → rule.1 ≠ None) →
  ∃ out, reduce_prog prog = Ok out
    ∧ (∀ rule, rule ∈ out → rule ∈ prog)
    ∧ (∀ rule, rule ∈ prog → ∃ rule', rule' ∈ out ∧ reduce_key rule' = reduce_key rule)
    ∧ (∀ (i j : nat) ri rj, out !! i = Some ri → out !! j = Some rj →
         reduce_key ri = reduce_key rj → i = j).
Proof.
  intros Hheads. destruct (reduce_loop_headed prog [] Hheads) as [final Hrun].
  unfold reduce_prog. rewrite Hrun. simpl. eexists. split; [reflexivity|].
  apply (reduce_loop_invariant prog [] []) in Hrun as (Hnodup & Hvalues & Hkeys).
  2: { split; [constructor|]. split; [intros ?? Hin|intros ? Hin]; inversion Hin. }
  simpl in *. unfold dict_values. split; [|split].
  - intros rule Hin. apply list_elem_of_fmap in Hin as ([k rule'] & -> & Hin).
    by destruct (Hvalues _ _ Hin).
  - intros rule Hin. destruct (Hkeys _ Hin) as (k & Hkey & Hk).
    apply list_elem_of_fmap in Hk as ([k' rule'] & -> & Hin').
    exists rule'. split.
    + apply list_elem_of_fmap. by exists (k', rule').
    + destruct (Hvalues _ _ Hin') as [_ ->]. done.
  - intros i j ri rj. rewrite !list_lookup_fmap.
    destruct (final !! i) as [[ki ri']|] eqn:Hi; simpl; [|done].
    destruct (final !! j) as [[kj rj']|] eqn:Hj; simpl; [|done].
    intros [= <-] [= <-] Hsame.
    destruct (Hvalues ki ri') as [_ Hki]; [by eapply list_elem_of_lookup_2|].
    destruct (Hvalues kj rj') as [_ Hkj]; [by eapply list_elem_of_lookup_2|].
    assert (ki = kj) as -> by congruence.
    eapply NoDup_lookup; [exact Hnodup|rewrite list_lookup_fmap..].
    + by rewrite Hi.
    + by rewrite Hj.
Qed.

Lemma reduce_key_Some h body :
  reduce_key (Some h, body)
  = Ok (f h, set_map (D := gset Signature) f (py_set body)).
Proof.
  unfold reduce_key. cbn [mbind result_bind]. do 2 f_equal.
  apply set_eq. intros sig.
  rewrite elem_of_list_to_set, list_elem_of_fmap, elem_of_map.
  by setoid_rewrite elem_of_py_iter.
Qed.

(** Two rules with heads share a key exactly when their heads and the
    sets of their body literals reduce alike. *)
Lemma reduce_key_headed h1 body1 h2 body2 :
  reduce_key (Some h1, body1) = reduce_key (Some h2, body2) ↔
  f h1 = f h2 ∧ set_map (D := gset Signature) f (py_set body1) = set_map f (py_set body2).
Proof.
  rewrite !reduce_key_Some. split.
  - intros [= Hpred Hargs Hbody]. split; [|done]. unfold f. by rewrite Hpred, Hargs.
  - by intros [-> ->].
Qed.

(** A rule without head stops [reduce_prog] wherever it stands. *)
Lemma reduce_prog_headless (prog : list Rule) body :
  (None, body) ∈ prog → ∃ e, reduce_prog prog = Raise e.
Proof.
  unfold reduce_prog. generalize (@nil (Signature * gset Signature * Rule)).
  induction prog as [|[head body'] prog IH]; intros reduced Hin; [inversion Hin|].
  simpl. destruct head as [h|]; simpl; [|by eexists].
  apply elem_of_cons in Hin as [[=]|Hin]. by apply IH.
Qed.

End ReduceFacts.

(** C5. Deduplication does not reach rules without head: reading the
    predicate of the missing head fails.  Two copies of the constraint
    [:- q(B)] are duplicates by the specification; [reduce_prog] raises on
    them.  With heads, the two orders of [p(A,B) :- q(A), r(B)] do reduce
    to one entry. *)
Theorem reduce_prog_constraints `{order : IterOrder} :
  reduce_prog [(None, BodyTuple [Examples.q_B]); (None, BodyTuple [Examples.q_B])]
  = Raise (AttributeError "'NoneType' object has no attribute 'predicate'")
  ∧ reduce_prog [Examples.rule_q_r; Examples.rule_r_q] = Ok [Examples.rule_r_q].
Proof. split; vm_compute; reflexivity. Qed.

(** ** Runs of the two policies *)

(** [p(A) :- r(B,C), q(A,B).] is put in the order its modes allow. *)
Example order_rule_chain :
  order_rule (order := elements_order)
    (Some Examples.p_A, BodySet {[Examples.r_BC; Examples.q_AB]}) None
  = Some (Ok (Some Examples.p_A, BodyTuple [Examples.q_AB; Examples.r_BC])).
Proof. vm_compute. reflexivity. Qed.

(** A generator goes first although nothing grounds it. *)
Example order_rule_generator_first :
  order_rule (order := elements_order)
    (Some Examples.p_A, BodyTuple [Examples.s_D; Examples.q_AB; Examples.g_D]) None
  = Some (Ok (Some Examples.p_A,
              BodyTuple [Examples.g_D; Examples.s_D; Examples.q_AB])).
Proof. vm_compute. reflexivity. Qed.

(** The recall-directed policy on the same body: [s(D)] has the best
    recall and goes first, then the literals all of whose arguments are
    seen. *)
Example order_rule_datalog_recall :
  order_rule (order := elements_order)
    (Some Examples.p_A, BodyTuple [Examples.r_BC; Examples.s_D])
    (Some (mkSettings true {[("s", "0") := 3%Z]} false false 6 2 6 2 ∅ None))
  = Some (Ok (Some Examples.p_A, BodyTuple [Examples.s_D; Examples.r_BC])).
Proof. vm_compute. reflexivity. Qed.

(** * Further properties of the module *)

(** ** Sorting twice, and ties *)

Section SortedMore.
Context {A K : Type} (key : A → K) (le : K → K → bool).

Lemma insert_sorted_least (x : A) (l : list A) :
  Forall (λ y, le (key x) (key y) = true) l → insert_sorted key le x l = x :: l.
Proof.
  destruct 1 as [|y l Hy _]; simpl; [done|]. by rewrite Hy.
Qed.

(** Sorting a list whose keys never go down leaves it as it is. *)
Lemma sorted_of_sorted (l : list A) :
  StronglySorted (λ x y, le (key x) (key y) = true) l → sorted key le l = l.
Proof.
  induction 1 as [|x l Hsorted IH Hall]; [done|].
  change (sorted key le (x :: l)) with (insert_sorted key le x (sorted key le l)).
  rewrite IH. by apply insert_sorted_least.
Qed.

Hypothesis le_refl : ∀ a, le a a = true.

Lemma filter_insert_sorted `{EqDecision K} (k : K) (x : A) (l : list A) :
  filter (λ y, key y = k) (insert_sorted key le x l)
  = filter (λ y, key y = k) (x :: l).
Proof.
  induction l as [|y l IH]; simpl; [done|].
  destruct (le (key x) (key y)) eqn:Hxy; [done|].
  rewrite (filter_cons _ y (insert_sorted key le x l)), IH.
  rewrite !filter_cons.
  destruct (decide (key y = k)) as [Hy|Hy], (decide (key x = k)) as [Hx|Hx]; try done.
  rewrite Hx, <-Hy, le_refl in Hxy. done.
Qed.

(** Elements of one key keep their order. *)
Lemma sorted_stable `{EqDecision K} (k : K) (l : list A) :
  filter (λ y, key y = k) (sorted key le l) = filter (λ y, key y = k) l.
Proof.
  induction l as [|x l IH]; [done|].
  change (sorted key le (x :: l)) with (insert_sorted key le x (sorted key le l)).
  rewrite filter_insert_sorted, !filter_cons, IH. done.
Qed.

End SortedMore.

(** ** The canonical order, applied again and composed *)

Section OrderProgFacts.
Context {order : IterOrder}.

Lemma bool_nat_le_refl a : bool_nat_le a a = true.
Proof.
  destruct (bool_nat_le a a) eqn:Hle; [done|].
  pose proof (bool_nat_le_total a a Hle). congruence.
Qed.

(** [order_prog] is idempotent. *)
Lemma order_prog_idempotent (prog : list Rule) :
  order_prog (order_prog prog) = order_prog prog.
Proof.
  unfold order_prog at 1. apply sorted_of_sorted.
  apply (sorted_sorted _ _ bool_nat_le_total bool_nat_le_trans).
Qed.

(** X8. [order_prog] is idempotent, and the printers sort the program
    themselves: sorting it beforehand, as [print_prog_score] does, changes
    nothing of the text. *)
Lemma format_prog_order_prog (prog : list Rule) :
  order_prog (order_prog prog) = order_prog prog
  ∧ format_prog (order_prog prog) = format_prog prog
  ∧ format_prog2 (order_prog prog) = format_prog2 prog.
Proof.
  split; [apply order_prog_idempotent|].
  unfold format_prog, format_prog2. by rewrite order_prog_idempotent.
Qed.

(** X9. Rules of the same class and body length keep the order they had. *)
Lemma order_prog_stable (prog : list Rule) (recursive : bool) (n : nat) :
  filter (λ rule, (rule_is_recursive rule, py_len rule.2) = (recursive, n))
    (order_prog prog)
  = filter (λ rule, (rule_is_recursive rule, py_len rule.2) = (recursive, n)) prog.
Proof. apply sorted_stable, bool_nat_le_refl. Qed.

Lemma calc_prog_size_perm (prog1 prog2 : list Rule) :
  prog1 ≡ₚ prog2 → calc_prog_size prog1 = calc_prog_size prog2.
Proof.
  induction 1 as [|r p1 p2 _ IH|r1 r2 p|p1 p2 p3 _ IH1 _ IH2]; simpl; lia.
Qed.

Lemma existsb_perm {A} (p : A → bool) (l1 l2 : list A) :
  l1 ≡ₚ l2 → existsb p l1 = existsb p l2.
Proof.
  induction 1 as [|x l1 l2 _ IH|x y l|l1 l2 l3 _ IH1 _ IH2]; simpl; [done|by rewrite IH| |congruence].
  by destruct (p x), (p y).
Qed.

(** X10. The canonical order changes neither the number of rules, nor the
    size of the program, nor whether it counts as recursive or as having
    an invented predicate. *)
Lemma order_prog_preserves (prog : list Rule) :
  length (order_prog prog) = length prog
  ∧ calc_prog_size (order_prog prog) = calc_prog_size prog
  ∧ prog_is_recursive (order_prog prog) = prog_is_recursive prog
  ∧ prog_has_invention (order_prog prog) = prog_has_invention prog.
Proof.
  assert (order_prog prog ≡ₚ prog) as Hperm by apply sorted_perm.
  split; [by rewrite Hperm|]. split; [by apply calc_prog_size_perm|].
  unfold prog_is_recursive, prog_has_invention. rewrite Hperm.
  split; destruct (length prog <? 2); try done; by apply existsb_perm.
Qed.

End OrderProgFacts.

(** ** When the mode-directed scheduler succeeds *)

Section SchedulerMore.
Context {order : IterOrder}.

Lemma grounding_safe_mono (grounded grounded' : gset string) (schedule : list Literal) :
  grounded ⊆ grounded' → grounding_safe grounded schedule →
  grounding_safe grounded' schedule.
Proof.
  revert grounded grounded'. induction schedule as [|x rest IH]; simpl; [done|].
  intros grounded grounded' Hsub [Hx Hrest]. split.
  - by transitivity grounded.
  - apply (IH (grounded ∪ outputs x)); [|done]. by apply union_mono_r.
Qed.

(** A literal whose outputs are grounded already can be left out. *)
Lemma grounding_safe_remove (grounded : gset string) (schedule : list Literal) l :
  outputs l ⊆ grounded → grounding_safe grounded schedule →
  grounding_safe grounded (filter (λ x, x ≠ l) schedule).
Proof.
  revert grounded. induction schedule as [|x rest IH]; simpl; [done|].
  intros grounded Hout [Hx Hrest]. rewrite filter_cons.
  destruct (decide (x ≠ l)) as [Hne|Heq]; simpl.
  - split; [done|]. apply IH; [|done]. by apply union_subseteq_l'.
  - apply dec_stable in Heq as ->. apply IH; [done|].
    apply (grounding_safe_mono (grounded ∪ outputs l)); [|done].
    by apply union_least.
Qed.

Lemma filter_remove_perm (body_literals : gset Literal) (schedule : list Literal) l :
  schedule ≡ₚ elements body_literals →
  filter (λ x, x ≠ l) schedule ≡ₚ elements (body_literals ∖ {[l]}).
Proof.
  intros Hperm. apply NoDup_Permutation.
  - apply NoDup_filter. rewrite Hperm. apply NoDup_elements.
  - apply NoDup_elements.
  - intros x. rewrite list_elem_of_filter, Hperm, !elem_of_elements,
      elem_of_difference, elem_of_singleton. tauto.
Qed.

(** The loop succeeds from any state from which a safe schedule exists. *)
Lemma order_loop_complete fuel rule head grounded body_literals ordered_body schedule :
  size body_literals ≤ fuel →
  safe_schedule grounded body_literals schedule →
  ∃ final, order_loop fuel rule head grounded body_literals ordered_body
           = Some (Ok final).
Proof.
  revert grounded body_literals ordered_body schedule.
  induction fuel as [|fuel IH];
    intros grounded body_literals ordered_body schedule Hfuel [Hperm Hsafe]; simpl.
  - case_bool_decide as Hempty; [by eexists|].
    assert (size body_literals ≠ 0); [|lia].
    intros Hzero. apply Hempty, leibniz_equiv. by apply size_empty_iff.
  - case_bool_decide as Hempty; [by eexists|].
    destruct (select_literal head grounded None (set_iter body_literals))
      as [sel|] eqn:Hsel.
    + apply selected_in_pool in Hsel as [Hin Hsub].
      apply (IH _ _ _ (filter (λ x, x ≠ sel) schedule)).
      * apply size_remove in Hin. lia.
      * split; [by apply filter_remove_perm|].
        apply grounding_safe_remove; [by apply union_subseteq_r'|].
        by apply (grounding_safe_mono grounded); [apply union_subseteq_l'|].
    + exfalso. apply select_literal_None in Hsel as [_ Hall].
      destruct schedule as [|x rest].
      * apply Hempty, leibniz_equiv, elements_empty_iff.
        by apply Permutation_nil_l in Hperm.
      * destruct Hsafe as [Hx _]. destruct (Hall x) as [_ Hnot]; [|done].
        apply elem_of_set_iter, elem_of_elements. rewrite <-Hperm. left.
Qed.

(** The greedy selection loses nothing.  Under the mode-directed policy
    [order_rule] returns a schedule exactly when the body has one that is
    grounding-safe from the inputs of the head; otherwise it raises. *)
Lemma order_rule_complete head body settings :
  mode_directed settings →
  (∃ schedule, safe_schedule (head_inputs head) (py_set body) schedule)
  ↔ ∃ ordered_body, order_rule (head, body) settings
                    = Some (Ok (head, BodyTuple ordered_body)).
Proof.
  intros Hmode. split.
  - intros [schedule Hsafe]. rewrite order_rule_mode_directed by done.
    destruct (order_loop_complete (size (py_set body)) (head, body) head
                (∅ ∪ head_inputs head) (py_set body) [] schedule) as [final ->];
      [done| |by eexists].
    by rewrite (left_id_L ∅ (∪)).
  - intros [ordered_body Hrun].
    destruct (order_rule_Ok_safe _ _ _ _ Hmode Hrun) as (ob & [= <-] & Hperm & Hsafe).
    by exists ordered_body.
Qed.

Lemma order_rule_no_schedule head body settings :
  mode_directed settings →
  (¬ ∃ schedule, safe_schedule (head_inputs head) (py_set body) schedule) →
  order_rule (head, body) settings
  = Some (Raise (ValueError (grounding_message (head, body)))).
Proof.
  intros Hmode Hnone. destruct (order_rule_total (head, body) settings) as [[r|e] Hrun].
  - exfalso. apply Hnone.
    destruct (order_rule_Ok_safe _ _ _ _ Hmode Hrun) as (ob & -> & Hperm & Hsafe).
    by exists ob.
  - rewrite Hrun. by rewrite (order_rule_Raise _ _ _ Hrun).
Qed.

(** [order_rule_datalog] has no failure case. *)
Lemma order_rule_datalog_succeeds head body (settings : Settings) :
  datalog settings = true →
  ∃ ordered_body,
    order_rule (head, body) (Some settings) = Some (Ok (head, BodyTuple ordered_body))
    ∧ ordered_body ≡ₚ elements (py_set body).
Proof.
  intros Hdatalog.
  destruct (order_rule_total (head, body) (Some settings)) as [[r|e] Hrun].
  - destruct (order_rule_Ok _ _ _ _ Hrun) as (ob & -> & Hperm). by exists ob.
  - exfalso. revert Hrun. unfold order_rule. rewrite Hdatalog.
    unfold order_rule_datalog.
    destruct (datalog_loop _ _ _ _ _) as [r'|] eqn:Hloop; [|done].
    by apply datalog_loop_result in Hloop as (appended & -> & _).
Qed.

(** X4. What [order_rule] returns can be given to [order_rule] again, as
    the printers do: the second call does not raise. *)
Lemma order_rule_again rule settings ordered :
  order_rule rule settings = Some (Ok ordered) →
  ∃ again, order_rule ordered settings = Some (Ok again).
Proof.
  destruct rule as [head body]. intros Hrun.
  destruct settings as [st|]; [destruct (datalog st) eqn:Hd|].
  - destruct (order_rule_Ok _ _ _ _ Hrun) as (ob & -> & _).
    destruct (order_rule_datalog_succeeds head (BodyTuple ob) st Hd) as (ob' & -> & _).
    by eexists.
  - destruct (order_rule_Ok_safe head body (Some st) _ Hd Hrun) as (ob & -> & Hperm & Hsafe).
    destruct (proj1 (order_rule_complete head (BodyTuple ob) (Some st) Hd)) as [ob' ->];
      [|by eexists].
    exists ob. split; [|done]. simpl. symmetry. apply elements_list_to_set.
    rewrite Hperm. apply NoDup_elements.
  - destruct (order_rule_Ok_safe head body None _ I Hrun) as (ob & -> & Hperm & Hsafe).
    destruct (proj1 (order_rule_complete head (BodyTuple ob) None I)) as [ob' ->];
      [|by eexists].
    exists ob. split; [|done]. simpl. symmetry. apply elements_list_to_set.
    rewrite Hperm. apply NoDup_elements.
Qed.

End SchedulerMore.

Lemma existsb_same_members {A} (p : A → bool) (l1 l2 : list A) :
  (∀ x, x ∈ l1 ↔ x ∈ l2) → existsb p l1 = existsb p l2.
Proof.
  intros Hmem. apply eq_true_iff_eq. rewrite !existsb_exists.
  split; intros (x & Hx & Hp); exists x; (split; [|done]);
    apply list_elem_of_In, Hmem, list_elem_of_In, Hx.
Qed.

Section SchedulerKeeps.
Context {order : IterOrder}.

(** X5. Scheduling keeps the head, does not raise the size of the rule and
    keeps it for a frozenset body, and keeps the rule recursive or not. *)
Lemma order_rule_preserves head body settings ordered :
  order_rule (head, body) settings = Some (Ok ordered) →
  ordered.1 = head
  ∧ rule_size ordered ≤ rule_size (head, body)
  ∧ (∀ s, body = BodySet s → rule_size ordered = rule_size (head, body))
  ∧ rule_is_recursive ordered = rule_is_recursive (head, body)
  ∧ rule_is_invented ordered = rule_is_invented (head, body).
Proof.
  intros Hrun. apply order_rule_Ok in Hrun as (ob & -> & Hperm).
  split; [done|]. simpl. split; [|split; [|split; [|done]]].
  - rewrite Hperm. destruct body as [s|t]; simpl; [done|].
    assert (length (elements (list_to_set t : gset Literal)) ≤ length t); [|lia].
    apply submseteq_length, NoDup_submseteq; [apply NoDup_elements|].
    intros x. by rewrite elem_of_elements, elem_of_list_to_set.
  - intros s ->. simpl in *. by rewrite Hperm.
  - destruct head as [h|]; [|done]. apply existsb_same_members.
    intros x. by rewrite Hperm, elem_of_elements, elem_of_py_iter.
Qed.

End SchedulerKeeps.


Section RecursionLast.
Context {order : IterOrder}.

(** A literal with the predicate of the head is selected only when the
    pool holds no generator and no other literal that is ready. *)
Lemma select_literal_recursive head grounded selected pool l :
  select_literal head grounded selected pool = Some l →
  non_recursive head l = false → ¬ is_generator l →
  ∀ waiting, waiting ∈ pool →
    ¬ is_generator waiting
    ∧ ¬ (non_recursive head waiting = true ∧ inputs waiting ⊆ grounded).
Proof.
  intros Hsel Hrec Hgen. revert selected Hsel.
  induction pool as [|x pool IH]; intros selected; simpl; [by intros _ ? ?%elem_of_nil|].
  case_bool_decide as Hx; [by intros [= ->]|].
  case_bool_decide as Hsub; simpl.
  - destruct (non_recursive head x) eqn:Hnr; [intros [= ->]; congruence|].
    intros Hsel waiting [->|Hin]%elem_of_cons.
    + split; [done|]. intros [? _]. congruence.
    + destruct selected; by eapply IH.
  - intros Hsel waiting [->|Hin]%elem_of_cons.
    + split; [done|]. by intros [_ ?].
    + by eapply IH.
Qed.

Lemma order_loop_recursion_last fuel rule head grounded body_literals ordered_body final :
  order_loop fuel rule head grounded body_literals ordered_body = Some (Ok final) →
  ∃ appended, final = ordered_body ++ appended
    ∧ appended ≡ₚ elements body_literals
    ∧ recursion_last head grounded appended.
Proof.
  revert grounded body_literals ordered_body.
  induction fuel as [|fuel IH]; intros grounded body_literals ordered_body; simpl.
  - case_bool_decide as Hempty; [|done].
    intros [= <-]. exists []. by rewrite app_nil_r, Hempty, elements_empty.
  - case_bool_decide as Hempty.
    { intros [= <-]. exists []. by rewrite app_nil_r, Hempty, elements_empty. }
    destruct (select_literal _ _ _ _) as [sel|] eqn:Hsel; [|done].
    pose proof (selected_in_pool _ _ _ _ Hsel) as [Hin _].
    intros Hrun. apply IH in Hrun as (appended & -> & Hperm & Hlast).
    exists (sel :: appended). split; [by rewrite <-app_assoc|]. split.
    + rewrite (elements_remove _ _ Hin). by constructor.
    + split; [|done]. intros Hrec Hgen. apply Forall_forall. intros waiting Hw.
      apply (select_literal_recursive _ _ _ _ _ Hsel Hrec Hgen).
      apply elem_of_set_iter. rewrite Hperm, elem_of_elements in Hw.
      by apply elem_of_difference in Hw as [? _].
Qed.

Lemma recursion_last_lookup head grounded schedule (i j : nat) l waiting :
  recursion_last head grounded schedule →
  i < j → schedule !! i = Some l → schedule !! j = Some waiting →
  non_recursive head l = false → ¬ is_generator l →
  ¬ is_generator waiting
  ∧ ¬ (non_recursive head waiting = true
       ∧ inputs waiting ⊆ grounded ∪ ⋃ (outputs <$> take i schedule)).
Proof.
  revert grounded i j. induction schedule as [|x rest IH]; intros grounded i j; [done|].
  intros [Hhere Hrest] Hij Hi Hj Hrec Hgen. destruct j as [|j]; [lia|].
  destruct i as [|i]; simpl in *.
  - injection Hi as ->. specialize (Hhere Hrec Hgen). rewrite Forall_forall in Hhere.
    destruct (Hhere waiting) as [Hg Hready]; [by eapply list_elem_of_lookup_2|].
    split; [done|]. intros [Hnr Hsub]. apply Hready. split; [done|].
    intros v Hv. apply Hsub in Hv. apply elem_of_union in Hv as [?|Hv]; [done|].
    by apply elem_of_empty in Hv.
  - rewrite (assoc_L (∪)). apply (IH _ i j); [done|lia|done..].
Qed.

(** X6. Recursion comes last.  In the schedule of the mode-directed policy
    a literal with the predicate of the head that is not a generator
    stands before another literal only if that one is no generator and
    was not ready (non-recursive with its inputs grounded) at the time. *)
Lemma order_rule_recursion_last head body settings ordered_body (i j : nat) l waiting :
  mode_directed settings →
  order_rule (head, body) settings = Some (Ok (head, BodyTuple ordered_body)) →
  i < j → ordered_body !! i = Some l → ordered_body !! j = Some waiting →
  non_recursive head l = false → ¬ is_generator l →
  ¬ is_generator waiting
  ∧ ¬ (non_recursive head waiting = true
       ∧ inputs waiting ⊆ head_inputs head ∪ ⋃ (outputs <$> take i ordered_body)).
Proof.
  intros Hmode. rewrite order_rule_mode_directed by done.
  destruct (order_loop _ _ _ _ _ _) as [[ob|e]|] eqn:Hrun; [|done..].
  apply order_loop_recursion_last in Hrun as (appended & -> & _ & Hlast).
  intros [= <-]. rewrite (left_id_L ∅ (∪)) in Hlast. by apply recursion_last_lookup.
Qed.

End RecursionLast.

(** ** Rules without head *)

Section Headless.
Context {order : IterOrder}.







End Headless.



(** A headless rule is reordered literal by literal. *)
Example headless_rule_reordered :
  order_rule (order := elements_order)
    (None, BodyTuple [Examples.s_D; Examples.g_D]) None
  = Some (Ok (None, BodyTuple [Examples.g_D; Examples.s_D])).
Proof. vm_compute. reflexivity. Qed.

(** ** Subsumption as a preorder *)

(** [rule_subsumes] is reflexive and transitive. *)
Lemma rule_subsumes_preorder :
  (∀ r : ReducedRule, rule_subsumes r r = true)
  ∧ (∀ r1 r2 r3 : ReducedRule,
       rule_subsumes r1 r2 = true → rule_subsumes r2 r3 = true →
       rule_subsumes r1 r3 = true).
Proof.
  split.
  - intros r. apply rule_subsumes_spec. split; [|done].
    destruct r.1; [by right|by left].
  - intros r1 r2 r3. rewrite !rule_subsumes_spec.
    intros [H12 Hb12] [H23 Hb23]. split; [|by transitivity r2.2].
    destruct H12 as [?|?]; [by left|]. destruct H23 as [?|?]; [done|by right].
Qed.

(** [theory_subsumes] is reflexive and transitive. *)
Lemma theory_subsumes_preorder :
  (∀ prog : list ReducedRule, theory_subsumes prog prog = true)
  ∧ (∀ prog1 prog2 prog3 : list ReducedRule,
       theory_subsumes prog1 prog2 = true → theory_subsumes prog2 prog3 = true →
       theory_subsumes prog1 prog3 = true).
Proof.
  destruct rule_subsumes_preorder as [Hrefl Htrans]. split.
  - intros prog. apply theory_subsumes_spec. intros r Hr. by exists r.
  - intros prog1 prog2 prog3. rewrite !theory_subsumes_spec. intros H12 H23 r3 Hr3.
    destruct (H23 r3 Hr3) as (r2 & Hr2 & Hs23).
    destruct (H12 r2 Hr2) as (r1 & Hr1 & Hs12).
    exists r1. split; [done|]. by eapply Htrans.
Qed.

(** X12. More rules on the left or fewer on the right keep a subsumption;
    every program subsumes the empty one, and the empty program subsumes
    no other. *)
Lemma theory_subsumes_monotone (prog1 prog1' prog2 prog2' : list ReducedRule) :
  (prog1 ⊆ prog1' → prog2' ⊆ prog2 →
   theory_subsumes prog1 prog2 = true → theory_subsumes prog1' prog2' = true)
  ∧ theory_subsumes prog1 [] = true
  ∧ (theory_subsumes [] prog2 = true ↔ prog2 = []).
Proof.
  split; [|split].
  - rewrite !theory_subsumes_spec. intros H1 H2 Hsub r2 Hr2.
    destruct (Hsub r2 (H2 _ Hr2)) as (r1 & Hr1 & Hs). exists r1. split; [by apply H1|done].
  - done.
  - split; [|by intros ->]. destruct prog2 as [|r prog2]; [done|]. simpl. done.
Qed.

(** ** More on deduplication *)

Section DictMore.
Context {K V : Type} `{EqDecision K}.

Lemma dict_set_fresh (k : K) (v : V) (d : list (K * V)) :
  k ∉ d.*1 → dict_set k v d = d ++ [(k, v)].
Proof.
  induction d as [|[k' v'] d IH]; [done|]. cbn [dict_set]. rewrite fmap_cons. cbn [fst].
  intros Hnot. rewrite not_elem_of_cons in Hnot. destruct Hnot as [Hne Hnot].
  rewrite decide_False by done. by rewrite IH.
Qed.

Lemma dict_set_length (k : K) (v : V) (d : list (K * V)) :
  length (dict_set k v d) ≤ S (length d).
Proof.
  induction d as [|[k' v'] d IH]; simpl; [done|].
  destruct (decide (k' = k)); simpl; lia.
Qed.

Lemma dict_set_elem_of_ne (k : K) (v : V) (d : list (K * V)) (k' : K) (v' : V) :
  NoDup d.*1 → (k', v') ∈ dict_set k v d →
  (k' = k ∧ v' = v) ∨ ((k', v') ∈ d ∧ k' ≠ k).
Proof.
  induction d as [|[k0 v0] d IH]; cbn [dict_set].
  - intros _ Hin. apply list_elem_of_singleton in Hin as [= -> ->]. by left.
  - rewrite fmap_cons. cbn [fst]. intros [Hk0 Hnodup]%NoDup_cons.
    destruct (decide (k0 = k)) as [->|Hne].
    + intros [[= -> ->]|Hin]%elem_of_cons; [by left|]. right. split; [by right|].
      intros ->. apply Hk0. apply list_elem_of_fmap. by exists (k, v').
    + intros [[= -> ->]|Hin]%elem_of_cons; [right; split; [left|done]|].
      destruct (IH Hnodup Hin) as [?|[? ?]]; [by left|right; split; [by right|done]].
Qed.

End DictMore.

Section ReduceMore.
Context {order : IterOrder}.

(** X13. [reduce_prog] returns exactly when every rule has a head. *)
Lemma reduce_prog_returns_iff (prog : list Rule) :
  (∃ out, reduce_prog prog = Ok out) ↔ ∀ rule, rule ∈ prog → rule.1 ≠ None.
Proof.
  split.
  - intros [out Hout] [head body] Hin. simpl. intros ->.
    destruct (reduce_prog_headless prog body Hin) as [e He]. congruence.
  - intros Hheads. destruct (reduce_prog_headed prog Hheads) as (out & -> & _).
    by eexists.
Qed.

Lemma reduce_loop_length prog reduced final :
  reduce_loop prog reduced = Ok final → length final ≤ length reduced + length prog.
Proof.
  revert reduced. induction prog as [|rule prog IH]; intros reduced; simpl.
  - intros [= <-]. lia.
  - destruct (reduce_key rule) as [k|e]; simpl; [|done].
    intros Hrun. apply IH in Hrun. pose proof (dict_set_length k rule reduced). lia.
Qed.

(** Rules stored under their keys, no key twice, go through the loop
    unchanged. *)
Lemma reduce_loop_distinct (entries reduced : list (Signature * gset Signature * Rule)) :
  (∀ k rule, (k, rule) ∈ entries → reduce_key rule = Ok k) →
  NoDup (reduced.*1 ++ entries.*1) →
  reduce_loop entries.*2 reduced = Ok (reduced ++ entries).
Proof.
  revert reduced. induction entries as [|[k rule] entries IH]; intros reduced Hkeys Hnodup.
  - simpl. by rewrite app_nil_r.
  - rewrite fmap_cons. cbn [snd reduce_loop].
    rewrite (Hkeys k rule) by left. cbn [mbind result_bind].
    rewrite fmap_cons in Hnodup. cbn [fst] in Hnodup.
    rewrite dict_set_fresh.
    + rewrite IH.
      * by rewrite <-app_assoc.
      * intros k' rule' Hin. apply Hkeys. by right.
      * rewrite fmap_app, <-app_assoc. done.
    + apply NoDup_app in Hnodup as (_ & Hdisj & _). intros Hin.
      apply (Hdisj k Hin). left.
Qed.

(** X15. Deduplication does not lengthen the program and, applied to its
    own result, returns it unchanged. *)
Lemma reduce_prog_idempotent (prog out : list Rule) :
  reduce_prog prog = Ok out →
  length out ≤ length prog ∧ reduce_prog out = Ok out.
Proof.
  unfold reduce_prog.
  destruct (reduce_loop prog []) as [final|e] eqn:Hrun; simpl; [|done].
  intros [= <-]. unfold dict_values. split.
  - rewrite length_fmap. apply reduce_loop_length in Hrun. simpl in Hrun. lia.
  - apply (reduce_loop_invariant prog [] []) in Hrun as (Hnodup & Hvalues & _).
    2: { split; [constructor|]. split; [intros ?? Hin|intros ? Hin]; inversion Hin. }
    rewrite reduce_loop_distinct; [done| |done].
    intros k rule Hin. by destruct (Hvalues k rule Hin).
Qed.

Lemma reduce_loop_keeps_last prog seen reduced final :
  NoDup reduced.*1 →
  (∀ k rule, (k, rule) ∈ reduced →
     ∃ before after, seen = before ++ rule :: after
       ∧ ∀ later, later ∈ after → reduce_key later ≠ Ok k) →
  reduce_loop prog reduced = Ok final →
  ∀ k rule, (k, rule) ∈ final →
    ∃ before after, seen ++ prog = before ++ rule :: after
      ∧ ∀ later, later ∈ after → reduce_key later ≠ Ok k.
Proof.
  revert seen reduced. induction prog as [|r prog IH]; intros seen reduced Hnodup Hinv; simpl.
  - intros [= <-]. by rewrite app_nil_r.
  - destruct (reduce_key r) as [k0|e] eqn:Hk0; simpl; [|done].
    intros Hrun. replace (seen ++ r :: prog) with ((seen ++ [r]) ++ prog)
      by (by rewrite <-app_assoc).
    apply (IH (seen ++ [r]) (dict_set k0 r reduced)); [by apply dict_set_NoDup| |done].
    intros k rule Hin. apply dict_set_elem_of_ne in Hin; [|done].
    destruct Hin as [[-> ->]|[Hin Hne]].
    + exists seen, []. split; [done|]. by intros ? ?%elem_of_nil.
    + destruct (Hinv k rule Hin) as (before & after & -> & Hafter).
      exists before, (after ++ [r]). split; [by rewrite <-app_assoc|].
      intros later [Hl|Hl]%elem_of_app; [by apply Hafter|].
      apply list_elem_of_singleton in Hl as ->. congruence.
Qed.

(** X16. Of the rules of one signature [reduce_prog] keeps the last: a rule
    of the result occurs in the program with no rule of the same
    signature after it. *)
Lemma reduce_prog_keeps_last (prog out : list Rule) rule :
  reduce_prog prog = Ok out → rule ∈ out →
  ∃ before after, prog = before ++ rule :: after
    ∧ ∀ later, later ∈ after → reduce_key later ≠ reduce_key rule.
Proof.
  unfold reduce_prog.
  destruct (reduce_loop prog []) as [final|e] eqn:Hrun; simpl; [|done].
  intros [= <-] Hin. apply list_elem_of_fmap in Hin as ([k rule'] & -> & Hin).
  pose proof (reduce_loop_invariant prog [] [] final) as Hinv.
  destruct Hinv as (_ & Hvalues & _); [|done|].
  { split; [constructor|]. split; [intros ?? H|intros ? H]; inversion H. }
  destruct (Hvalues _ _ Hin) as [_ Hkey]. simpl. rewrite Hkey.
  apply (reduce_loop_keeps_last prog [] [] final); [constructor| |done..].
  intros ?? H. inversion H.
Qed.

End ReduceMore.

(** ** More on the space enumerator *)

Lemma binomial_nonneg (n k : nat) : (0 ≤ binomial n k)%Z.
Proof.
  revert k. induction n as [|n IH]; intros [|k]; simpl; try lia.
  pose proof (IH k). pose proof (IH (S k)). lia.
Qed.

(** The estimate is zero exactly when more literals are asked for than
    there are candidate atoms. *)
Lemma binomial_zero_iff (n k : nat) : binomial n k = 0%Z ↔ n < k.
Proof.
  revert k. induction n as [|n IH]; intros [|k]; simpl; try lia.
  pose proof (binomial_nonneg n k). pose proof (binomial_nonneg n (S k)).
  pose proof (IH k). pose proof (IH (S k)). lia.
Qed.

(** What the innermost loop appends satisfies whatever the guards before
    [ret.append] establish. *)
Lemma vars_loop_Forall (P : Z * Z * Z * Z → Prop)
    predicates arity size_rules size_literals vars ret out :
  Forall P ret →
  (∀ size_vars hspace,
     size_vars ∈ vars →
     (size_vars ≤ size_literals * arity - 1)%Z →
     (0 ≤ arity)%Z →
     comb (predicates * size_vars ^ arity) size_literals = Ok hspace →
     hspace ≠ 0%Z →
     (1 < size_rules → 5 ≤ size_literals)%Z →
     P (size_literals, size_vars, size_rules, hspace)) →
  vars_loop predicates arity size_rules size_literals vars ret = Ok out →
  Forall P out.
Proof.
  revert ret. induction vars as [|size_vars vars IH]; intros ret Hret Hnew; simpl.
  - by intros [= <-].
  - destruct (Z.gtb_spec size_vars (size_literals * arity - 1)) as [?|Hle];
      [by intros [= <-]|].
    assert (∀ size_vars' hspace, size_vars' ∈ vars →
              (size_vars' ≤ size_literals * arity - 1)%Z → (0 ≤ arity)%Z →
              comb (predicates * size_vars' ^ arity) size_literals = Ok hspace →
              hspace ≠ 0%Z → (1 < size_rules → 5 ≤ size_literals)%Z →
              P (size_literals, size_vars', size_rules, hspace)) as Hnew'.
    { intros v h Hv. apply Hnew. by right. }
    unfold pow. destruct (Z.ltb_spec arity 0) as [?|Harity].
    { by destruct (size_vars =? 0)%Z. }
    cbn [mbind result_bind].
    destruct (comb (predicates * size_vars ^ arity) size_literals) as [hspace|e] eqn:Hcomb;
      cbn [mbind result_bind]; [|done].
    destruct (Z.eqb_spec hspace 0) as [?|Hnz]; [by apply IH|].
    destruct (Z.gtb_spec size_rules 1) as [Hr|Hr]; simpl.
    + destruct (Z.ltb_spec size_literals 5) as [Hl|Hl]; [by apply IH|].
      apply IH; [|done]. apply Forall_app. split; [done|]. constructor; [|done].
      apply Hnew; [left|done..|lia].
    + apply IH; [|done]. apply Forall_app. split; [done|]. constructor; [|done].
      apply Hnew; [left|done..|lia].
Qed.

Lemma for_each_invariant_in {A S} (P : S → Prop) (xs : list A)
    (body : A → S → result S) (acc r : S) :
  (∀ x s s', x ∈ xs → P s → body x s = Ok s' → P s') →
  P acc → for_each xs body acc = Ok r → P r.
Proof.
  revert acc. induction xs as [|x xs IH]; intros acc Hbody Hacc; simpl.
  - by intros [= <-].
  - destruct (body x acc) as [acc'|e] eqn:Hx; simpl; [|done].
    apply IH.
    + intros y s s' Hy. apply Hbody. by right.
    + eapply Hbody; [left|done..].
Qed.

Lemma bias_sweep_ok settings ret :
  bias_sweep settings = Ok ret → Forall (configuration_ok settings) ret.
Proof.
  unfold bias_sweep. apply for_each_invariant_in; [|constructor].
  intros size_rules s s' Hrules Hs. apply for_each_invariant_in; [|done].
  intros size_literals t t' Hlits Ht. apply vars_loop_Forall; [done|].
  intros size_vars hspace Hvars Hposs Harity Hcomb Hnz Hmulti.
  unfold range in *. apply elem_of_seqZ in Hrules, Hlits, Hvars.
  unfold comb in Hcomb.
  destruct (Z.ltb_spec ((Z.of_nat (size (body_preds settings)) + 1)
                        * size_vars ^ max_arity settings) 0) as [?|Hn]; [done|].
  destruct (Z.ltb_spec size_literals 0) as [?|Hk]; [done|].
  injection Hcomb as <-.
  pose proof (binomial_nonneg
    (Z.to_nat ((Z.of_nat (size (body_preds settings)) + 1) * size_vars ^ max_arity settings))
    (Z.to_nat size_literals)) as Hnonneg.
  assert (¬ (Z.to_nat ((Z.of_nat (size (body_preds settings)) + 1)
                       * size_vars ^ max_arity settings)
             < Z.to_nat size_literals)) as Hfit.
  { intros Hlt. by apply binomial_zero_iff in Hlt. }
  unfold configuration_ok.
  destruct (no_bias settings); repeat split; try lia.
Qed.

(** X17. Every configuration of the expanded mode, sorted or not, is within
    the bounds of the sweep, has at least five literals when it has more
    than one rule, and a positive estimate. *)
Lemma bias_order_expanded_ok (settings settings' : Settings) (max_size : Z) out :
  no_bias settings || order_space settings = true →
  bias_order settings max_size = Ok (settings', out) →
  ∀ e, e ∈ out →
    ∃ hspace, e.2 = Some hspace
      ∧ configuration_ok settings (e.1.1.1, e.1.1.2, e.1.2, hspace).
Proof.
  intros Hmode. unfold bias_order. rewrite Hmode. simpl.
  destruct (bias_sweep settings) as [ret|err] eqn:Hsweep; simpl; [|done].
  intros [= _ <-] e He. apply list_elem_of_fmap in He as ([[[l v] r] h] & -> & Hin).
  exists h. split; [done|]. cbn [fst snd].
  apply bias_sweep_ok in Hsweep. rewrite Forall_forall in Hsweep.
  apply (Hsweep (l, v, r, h)).
  destruct (order_space settings); [by rewrite sorted_perm in Hin|done].
Qed.

(** X19. Asking for the order by space only rearranges the sequence: with
    no-bias on, the sequences with and without it are permutations of each
    other. *)
Lemma bias_order_space_permutation (settings1 settings2 settings2' : Settings)
    (max_size : Z) out2 :
  no_bias settings1 = true → no_bias settings2 = true →
  order_space settings1 = false → order_space settings2 = true →
  max_vars settings1 = max_vars settings2 →
  max_rules settings1 = max_rules settings2 →
  max_body settings1 = max_body settings2 →
  max_arity settings1 = max_arity settings2 →
  body_preds settings1 = body_preds settings2 →
  bias_order settings2 max_size = Ok (settings2', out2) →
  ∃ settings1' out1, bias_order settings1 max_size = Ok (settings1', out1)
    ∧ out2 ≡ₚ out1.
Proof.
  intros Hb1 Hb2 Hs1 Hs2 Hv Hr Hbody Ha Hp. unfold bias_order.
  rewrite Hb1, Hb2, Hs1, Hs2. simpl.
  assert (bias_sweep settings1 = bias_sweep settings2) as ->.
  { unfold bias_sweep. by rewrite Hb1, Hb2, Hv, Hr, Hbody, Ha, Hp. }
  destruct (bias_sweep settings2) as [ret|err]; simpl; [|done].
  intros [= _ <-]. do 2 eexists. split; [done|]. by rewrite sorted_perm.
Qed.


Lemma StronglySorted_lookup {A} (R : relation A) (l : list A) (i j : nat) a b :
  StronglySorted R l → i < j → l !! i = Some a → l !! j = Some b → R a b.
Proof.
  intros Hsorted. revert i j.
  induction Hsorted as [|x xs Hsorted IH Hall]; intros i j Hij Hi Hj; [done|].
  destruct j as [|j]; [lia|]. simpl in Hj. destruct i as [|i]; simpl in Hi.
  - injection Hi as <-. rewrite Forall_forall in Hall.
    apply Hall. by eapply list_elem_of_lookup_2.
  - apply (IH i j); [lia|done..].
Qed.

Lemma for_each_seqZ_invariant {St} (P : Z → St → Prop) (lo n : Z)
    (body : Z → St → result St) (acc r : St) :
  (∀ x s s', (lo ≤ x < lo + n)%Z → P x s → body x s = Ok s' → P (x + 1)%Z s') →
  P lo acc → for_each (seqZ lo n) body acc = Ok r → ∃ hi, (lo ≤ hi)%Z ∧ P hi r.
Proof.
  destruct (Z.le_gt_cases n 0) as [Hn|Hn].
  { rewrite seqZ_nil by done. intros _ Hacc [= <-]. exists lo. split; [lia|done]. }
  rewrite <-(Z2Nat.id n) by lia. generalize (Z.to_nat n). clear Hn. intros k.
  revert lo acc. induction k as [|k IH]; intros lo acc Hbody Hacc.
  - simpl. intros [= <-]. exists lo. split; [lia|done].
  - rewrite seqZ_cons by lia. simpl.
    destruct (body lo acc) as [acc'|e] eqn:Hlo; simpl; [|done].
    replace (Z.pred (Z.of_nat (S k))) with (Z.of_nat k) by lia. intros Hrun.
    destruct (IH (Z.succ lo) acc') as (hi & Hhi & Hr); [| |done|].
    + intros x s s' Hx. apply Hbody. lia.
    + replace (Z.succ lo) with (lo + 1)%Z by lia. apply (Hbody lo acc); [lia|done..].
    + exists hi. split; [lia|done].
Qed.

Ltac sweep_weaken H :=
  eapply Forall_impl; [exact H|]; unfold sweep_before; intros ? ?; simpl in *; lia.

Lemma vars_loop_sorted predicates arity size_rules size_literals (lo n : Z) ret out :
  StronglySorted sweep_lt ret →
  Forall (sweep_before size_rules size_literals lo) ret →
  vars_loop predicates arity size_rules size_literals (seqZ lo n) ret = Ok out →
  StronglySorted sweep_lt out
  ∧ Forall (λ tup, tup.1.2 < size_rules
              ∨ (tup.1.2 = size_rules ∧ tup.1.1.1 < size_literals + 1))%Z out.
Proof.
  destruct (Z.le_gt_cases n 0) as [Hn|Hn].
  { rewrite seqZ_nil by done. intros Hs Hb [= <-]. split; [done|sweep_weaken Hb]. }
  rewrite <-(Z2Nat.id n) by lia. generalize (Z.to_nat n). clear Hn. intros k.
  revert lo ret. induction k as [|k IH]; intros lo ret Hsorted Hbefore.
  - simpl. intros [= <-]. split; [done|sweep_weaken Hbefore].
  - rewrite seqZ_cons by lia. cbn [vars_loop].
    replace (Z.pred (Z.of_nat (S k))) with (Z.of_nat k) by lia.
    assert (Forall (sweep_before size_rules size_literals (Z.succ lo)) ret) as Hnext
      by sweep_weaken Hbefore.
    destruct (lo >? size_literals * arity - 1)%Z;
      [intros [= <-]; split; [done|sweep_weaken Hbefore]|].
    destruct (pow lo arity) as [p|e]; cbn [mbind result_bind]; [|done].
    destruct (comb (predicates * p) size_literals) as [hspace|e];
      cbn [mbind result_bind]; [|done].
    destruct (hspace =? 0)%Z; [by apply IH|].
    destruct ((size_rules >? 1)%Z && (size_literals <? 5)%Z); [by apply IH|].
    apply IH.
    + apply StronglySorted_app_2; [|done|repeat constructor].
      intros a b Ha Hb. apply list_elem_of_singleton in Hb as ->.
      rewrite Forall_forall in Hbefore. by apply Hbefore.
    + apply Forall_app. split; [done|].
      apply Forall_singleton. unfold sweep_before. simpl. lia.
Qed.

(** The sweep lists its configurations in ascending order of rule count,
    then literal count, then variable count. *)
Lemma bias_sweep_sorted settings ret :
  bias_sweep settings = Ok ret → StronglySorted sweep_lt ret.
Proof.
  unfold bias_sweep, range. intros Hrun.
  apply (for_each_seqZ_invariant
           (λ size_rules ret, StronglySorted sweep_lt ret
              ∧ Forall (λ tup, tup.1.2 < size_rules)%Z ret)) in Hrun
    as (_ & _ & Hsorted & _); [done| |by split; constructor].
  intros size_rules s s' _ [Hs Hb] Hinner.
  apply (for_each_seqZ_invariant
           (λ size_literals ret, StronglySorted sweep_lt ret
              ∧ Forall (λ tup, tup.1.2 < size_rules
                          ∨ (tup.1.2 = size_rules ∧ tup.1.1.1 < size_literals))%Z ret))
    in Hinner as (hi & _ & Hsorted & Hbefore).
  - split; [done|]. sweep_weaken Hbefore.
  - intros size_literals t t' _ [Ht Hbt] Hvars.
    apply vars_loop_sorted in Hvars; [done..|]. sweep_weaken Hbt.
  - split; [done|]. sweep_weaken Hb.
Qed.

(** X20. Without the order by space the sequence is in the order of the
    sweep: rule counts ascend, within one rule count literal counts
    ascend, within one literal count variable counts ascend, and no
    configuration occurs twice. *)
Lemma bias_order_natural_order (settings settings' : Settings) (max_size : Z) out :
  no_bias settings = true → order_space settings = false →
  bias_order settings max_size = Ok (settings', out) →
  ∀ (i j : nat) a b, i < j → out !! i = Some a → out !! j = Some b →
    (a.1.2 < b.1.2
     ∨ (a.1.2 = b.1.2
        ∧ (a.1.1.1 < b.1.1.1 ∨ (a.1.1.1 = b.1.1.1 ∧ a.1.1.2 < b.1.1.2))))%Z.
Proof.
  intros Hbias Hspace. unfold bias_order. rewrite Hbias, Hspace. simpl.
  destruct (bias_sweep settings) as [ret|err] eqn:Hsweep; simpl; [|done].
  intros [= _ <-] i j a b Hij. rewrite !list_lookup_fmap.
  destruct (ret !! i) as [ta|] eqn:Hi; simpl; [|done].
  destruct (ret !! j) as [tb|] eqn:Hj; simpl; [|done].
  intros [= <-] [= <-]. simpl.
  apply bias_sweep_sorted in Hsweep.
  apply (StronglySorted_lookup sweep_lt ret i j ta tb Hsweep Hij Hi Hj).
Qed.


(** ** The expanded sweep is exhaustive *)

(** The loops only append. *)
Lemma vars_loop_keeps predicates arity size_rules size_literals vars ret out :
  vars_loop predicates arity size_rules size_literals vars ret = Ok out →
  ∀ tup, tup ∈ ret → tup ∈ out.
Proof.
  revert ret. induction vars as [|size_vars vars IH]; intros ret; simpl.
  - by intros [= <-].
  - destruct (size_vars >? size_literals * arity - 1)%Z; [by intros [= <-]|].
    destruct (pow size_vars arity) as [p|e]; cbn [mbind result_bind]; [|done].
    destruct (comb (predicates * p) size_literals) as [hspace|e];
      cbn [mbind result_bind]; [|done].
    destruct (hspace =? 0)%Z; [apply IH|].
    destruct ((size_rules >? 1)%Z && (size_literals <? 5)%Z); [apply IH|].
    intros Hrun tup Hin. apply (IH _ Hrun). apply elem_of_app. by left.
Qed.

Lemma for_each_keeps {A T} (xs : list A) (body : A → list T → result (list T))
    (acc r : list T) :
  (∀ x s s', x ∈ xs → body x s = Ok s' → ∀ t, t ∈ s → t ∈ s') →
  for_each xs body acc = Ok r → ∀ t, t ∈ acc → t ∈ r.
Proof.
  revert acc. induction xs as [|x xs IH]; intros acc Hbody; simpl.
  - by intros [= <-].
  - destruct (body x acc) as [acc'|e] eqn:Hx; simpl; [|done].
    intros Hrun t Ht. apply (IH acc'); [|done|].
    + intros y s s' Hy. apply Hbody. by right.
    + apply (Hbody x acc acc'); [left|done..].
Qed.

(** What the round of [x] appends is still there at the end. *)
Lemma for_each_reaches {A T} (xs : list A) (body : A → list T → result (list T))
    (acc r : list T) (x : A) (t : T) :
  (∀ y s s', y ∈ xs → body y s = Ok s' → ∀ u, u ∈ s → u ∈ s') →
  (∀ s s', body x s = Ok s' → t ∈ s') →
  x ∈ xs → for_each xs body acc = Ok r → t ∈ r.
Proof.
  revert acc. induction xs as [|y xs IH]; intros acc Hkeeps Hx Hin; simpl.
  - inversion Hin.
  - destruct (body y acc) as [acc'|e] eqn:Hy; simpl; [|done].
    intros Hrun. apply elem_of_cons in Hin as [<-|Hin].
    + apply (for_each_keeps xs body acc' r); [|done|by apply (Hx acc)].
      intros z s s' Hz. apply Hkeeps. by right.
    + apply (IH acc'); [|done..].
      intros z s s' Hz. apply Hkeeps. by right.
Qed.

(** The innermost loop reaches every variable count below its [break] and
    appends the configuration unless one of the two [continue]s skips it. *)
Lemma vars_loop_reaches predicates arity size_rules size_literals (lo n : Z)
    ret out size_vars :
  (lo ≤ size_vars < lo + n)%Z →
  (size_vars ≤ size_literals * arity - 1)%Z →
  (1 < size_rules → 5 ≤ size_literals)%Z →
  (1 ≤ size_literals ≤ predicates * size_vars ^ arity)%Z →
  vars_loop predicates arity size_rules size_literals (seqZ lo n) ret = Ok out →
  (size_literals, size_vars, size_rules,
   binomial (Z.to_nat (predicates * size_vars ^ arity)) (Z.to_nat size_literals)) ∈ out.
Proof.
  intros Hrange Hposs Hmulti Hfit.
  assert (0 < n)%Z as Hn by lia.
  rewrite <-(Z2Nat.id n) in Hrange |- * by lia.
  revert Hrange. generalize (Z.to_nat n). clear Hn. intros k.
  revert lo ret. induction k as [|k IH]; intros lo ret Hrange; [lia|].
  rewrite seqZ_cons by lia. cbn [vars_loop].
  replace (Z.pred (Z.of_nat (S k))) with (Z.of_nat k) by lia.
  destruct (Z.gtb_spec lo (size_literals * arity - 1)) as [?|Hle]; [lia|].
  unfold pow at 1. destruct (Z.ltb_spec arity 0) as [?|Harity].
  { by destruct (lo =? 0)%Z. }
  cbn [mbind result_bind].
  destruct (comb (predicates * lo ^ arity) size_literals) as [hspace|e] eqn:Hcomb;
    cbn [mbind result_bind]; [|done].
  destruct (Z.eq_dec lo size_vars) as [->|Hne].
  - unfold comb in Hcomb.
    destruct (Z.ltb_spec (predicates * size_vars ^ arity) 0) as [?|_]; [lia|].
    destruct (Z.ltb_spec size_literals 0) as [?|_]; [lia|].
    injection Hcomb as <-.
    destruct (Z.eqb_spec
      (binomial (Z.to_nat (predicates * size_vars ^ arity)) (Z.to_nat size_literals)) 0)
      as [Hzero|_].
    { apply binomial_zero_iff in Hzero. lia. }
    assert ((size_rules >? 1)%Z && (size_literals <? 5)%Z = false) as ->.
    { destruct (Z.gtb_spec size_rules 1); [|done].
      destruct (Z.ltb_spec size_literals 5); [lia|done]. }
    intros Hrun.
    apply (vars_loop_keeps _ _ _ _ _ _ _ Hrun).
    apply elem_of_app. right. apply list_elem_of_singleton. done.
  - destruct (hspace =? 0)%Z; [apply IH; lia|].
    destruct ((size_rules >? 1)%Z && (size_literals <? 5)%Z); apply IH; lia.
Qed.

Lemma bias_sweep_complete settings ret size_literals size_vars size_rules hspace :
  bias_sweep settings = Ok ret →
  configuration_ok settings (size_literals, size_vars, size_rules, hspace) →
  (size_literals, size_vars, size_rules,
   binomial
     (Z.to_nat ((Z.of_nat (size (body_preds settings)) + 1)
                * size_vars ^ max_arity settings))
     (Z.to_nat size_literals)) ∈ ret.
Proof.
  unfold bias_sweep, configuration_ok.
  intros Hrun (Hrules & Hlits & Hvars & Hposs & Hmulti & _ & Hfit).
  revert Hrun. apply (for_each_reaches _ _ _ _ size_rules).
  - intros r s s' _. apply for_each_keeps.
    intros l t t' _. apply vars_loop_keeps.
  - intros s s'. apply (for_each_reaches _ _ _ _ size_literals).
    + intros l t t' _. apply vars_loop_keeps.
    + intros t t'. unfold range. apply vars_loop_reaches; [|done..|lia].
      destruct (no_bias settings); lia.
    + unfold range. apply elem_of_seqZ. lia.
  - unfold range. apply elem_of_seqZ. destruct (no_bias settings); lia.
Qed.

(** Every estimate of the sweep is the count [math.comb] gave for the
    configuration it stands in. *)
Lemma bias_sweep_estimates settings ret :
  bias_sweep settings = Ok ret →
  Forall (λ tup : Z * Z * Z * Z,
            comb ((Z.of_nat (size (body_preds settings)) + 1)
                  * tup.1.1.2 ^ max_arity settings) tup.1.1.1 = Ok tup.2) ret.
Proof.
  unfold bias_sweep. apply for_each_invariant_in; [|constructor].
  intros size_rules s s' _ Hs. apply for_each_invariant_in; [|done].
  intros size_literals t t' _ Ht. apply vars_loop_Forall; [done|].
  intros size_vars hspace _ _ _ Hcomb _ _. done.
Qed.

Lemma sweep_lt_NoDup (ret : list (Z * Z * Z * Z)) :
  StronglySorted sweep_lt ret → NoDup ret.
Proof.
  induction 1 as [|tup ret Hsorted IH Hall]; constructor; [|done].
  intros Hin. rewrite Forall_forall in Hall. specialize (Hall tup Hin).
  unfold sweep_lt, sweep_before in Hall. lia.
Qed.

(** X18. The expanded mode lists exactly the admissible configurations,
    each one once: a configuration is in the sequence if and only if it
    meets the bounds of the sweep and carries the estimate [math.comb]
    gives for it. *)
Theorem bias_order_expanded_exact (settings settings' : Settings) (max_size : Z) out :
  no_bias settings || order_space settings = true →
  bias_order settings max_size = Ok (settings', out) →
  (∀ size_literals size_vars size_rules estimate,
     (size_literals, size_vars, size_rules, estimate) ∈ out
     ↔ ∃ hspace, estimate = Some hspace
         ∧ configuration_ok settings (size_literals, size_vars, size_rules, hspace)
         ∧ comb ((Z.of_nat (size (body_preds settings)) + 1)
                 * size_vars ^ max_arity settings) size_literals = Ok hspace)
  ∧ NoDup out.
Proof.
  intros Hmode. unfold bias_order. rewrite Hmode. simpl.
  destruct (bias_sweep settings) as [ret|err] eqn:Hsweep; simpl; [|done].
  intros [= _ <-].
  set (ret' := if order_space settings
               then sorted (λ tup : Z * Z * Z * Z, (tup.2, tup.1.1.1)) Z_Z_le ret
               else ret).
  assert (ret' ≡ₚ ret) as Hperm.
  { unfold ret'. destruct (order_space settings); [apply sorted_perm|done]. }
  split.
  - intros l v r e. rewrite list_elem_of_fmap. split.
    + intros ([[[l' v'] r'] h] & [= -> -> -> ->] & Hin). rewrite Hperm in Hin.
      exists h. split; [done|]. split.
      * pose proof (bias_sweep_ok _ _ Hsweep) as Hok. rewrite Forall_forall in Hok.
        by apply (Hok (l', v', r', h)).
      * pose proof (bias_sweep_estimates _ _ Hsweep) as Hest.
        rewrite Forall_forall in Hest. by apply (Hest (l', v', r', h)).
    + intros (h & -> & Hok & Hcomb). exists (l, v, r, h). split; [done|].
      rewrite Hperm.
      pose proof (bias_sweep_complete _ _ _ _ _ _ Hsweep Hok) as Hin.
      revert Hcomb. unfold comb.
      destruct (_ <? 0)%Z; [done|]. destruct (_ <? 0)%Z; [done|].
      by intros [= <-].
  - apply NoDup_fmap_2.
    + intros [[[l1 v1] r1] h1] [[[l2 v2] r2] h2]. by intros [= -> -> -> ->].
    + rewrite Hperm. apply sweep_lt_NoDup. by apply (bias_sweep_sorted settings).
Qed.

(** ** The order of [order_rule2] *)

Lemma comparison_laws_nat : comparison_laws Nat.compare.
Proof.
  split; [apply Nat.compare_refl|]. split; [apply Nat.compare_eq|].
  split; [intros a b; apply Nat.compare_antisym|].
  intros a b c. rewrite !Nat.compare_lt_iff. lia.
Qed.

Lemma comparison_laws_ascii : comparison_laws Ascii.compare.
Proof.
  unfold Ascii.compare. split; [intros a; apply N.compare_refl|].
  split; [apply Ascii.compare_eq_iff|].
  split; [intros a b; apply N.compare_antisym|].
  intros a b c. rewrite !N.compare_lt_iff. lia.
Qed.

(** Comparing pairs component by component keeps the laws. *)
Lemma lex_compare_trans {A B} (cmpA : A → A → comparison) (cmpB : B → B → comparison)
    (a1 a2 a3 : A) (b1 b2 b3 : B) :
  comparison_laws cmpA →
  (cmpB b1 b2 = Lt → cmpB b2 b3 = Lt → cmpB b1 b3 = Lt) →
  lex_compare (cmpA a1 a2) (cmpB b1 b2) = Lt →
  lex_compare (cmpA a2 a3) (cmpB b2 b3) = Lt →
  lex_compare (cmpA a1 a3) (cmpB b1 b3) = Lt.
Proof.
  intros (Hrefl & Heq & Hanti & Htrans) HtransB.
  destruct (cmpA a1 a2) eqn:H12; simpl; [|intros _|done].
  - apply Heq in H12 as ->. destruct (cmpA a2 a3); simpl; [apply HtransB|done..].
  - destruct (cmpA a2 a3) eqn:H23; simpl; [|intros _|done].
    + apply Heq in H23 as <-. by rewrite H12.
    + by rewrite (Htrans _ _ _ H12 H23).
Qed.

Lemma lex_compare_antisym (c1 c2 d1 d2 : comparison) :
  c1 = CompOpp d1 → c2 = CompOpp d2 → lex_compare c1 c2 = CompOpp (lex_compare d1 d2).
Proof. intros -> ->. by destruct d1. Qed.

Lemma comparison_laws_string : comparison_laws String.compare.
Proof.
  pose proof comparison_laws_ascii as Hascii.
  split; [|split; [apply String.compare_eq_iff|split; [apply String.compare_antisym|]]].
  - intros s. induction s as [|c s IH]; simpl; [done|].
    destruct Hascii as (Hrefl & _). by rewrite Hrefl.
  - intros a. induction a as [|x a IH]; intros [|y b] [|z c]; simpl; try done.
    change (lex_compare (Ascii.compare x y) (String.compare a b) = Lt →
            lex_compare (Ascii.compare y z) (String.compare b c) = Lt →
            lex_compare (Ascii.compare x z) (String.compare a c) = Lt).
    apply lex_compare_trans; [done|apply IH].
Qed.

Lemma comparison_laws_str_tuple : comparison_laws str_tuple_compare.
Proof.
  pose proof comparison_laws_string as Hstring.
  pose proof Hstring as (Hrefl & Heq & Hanti & Htrans).
  split; [|split; [|split]].
  - intros a. induction a as [|x a IH]; simpl; [done|]. by rewrite Hrefl.
  - intros a. induction a as [|x a IH]; intros [|y b]; simpl; try done.
    destruct (String.compare x y) eqn:Hxy; simpl; [|done..].
    apply Heq in Hxy as ->. intros Hab. by rewrite (IH b Hab).
  - intros a. induction a as [|x a IH]; intros [|y b]; simpl; try done.
    by apply lex_compare_antisym.
  - intros a. induction a as [|x a IH]; intros [|y b] [|z c]; simpl; try done.
    apply lex_compare_trans; [done|apply IH].
Qed.

Lemma comparison_laws_order_rule2 : comparison_laws order_rule2_compare.
Proof.
  pose proof comparison_laws_nat as Hnat.
  pose proof comparison_laws_string as Hstring.
  pose proof comparison_laws_str_tuple as (Hrefl & Heq & Hanti & Htrans).
  unfold order_rule2_compare. split; [|split; [|split]].
  - intros [[n p] args]. simpl.
    destruct Hnat as (-> & _), Hstring as (-> & _). simpl. apply Hrefl.
  - intros [[n p] args] [[n' p'] args']. simpl.
    destruct Hnat as (_ & HeqN & _), Hstring as (_ & HeqS & _).
    destruct (n ?= n') eqn:Hn; simpl; [|done..].
    destruct (String.compare p p') eqn:Hp; simpl; [|done..].
    intros Hargs. by rewrite (HeqN _ _ Hn), (HeqS _ _ Hp), (Heq _ _ Hargs).
  - intros a b. destruct Hnat as (_ & _ & HantiN & _), Hstring as (_ & _ & HantiS & _).
    apply lex_compare_antisym; [apply HantiN|].
    apply lex_compare_antisym; [apply HantiS|apply Hanti].
  - intros a b c.
    apply (lex_compare_trans Nat.compare
             (λ x y : nat * string * list string,
                lex_compare (String.compare x.1.2 y.1.2) (str_tuple_compare x.2 y.2))
             a.1.1 b.1.1 c.1.1 a b c); [done|].
    apply (lex_compare_trans String.compare str_tuple_compare
             a.1.2 b.1.2 c.1.2 a.2 b.2 c.2); [done|apply Htrans].
Qed.

(** From the laws: the order [sorted] needs. *)
Lemma order_rule2_le_total a b : order_rule2_le a b = false → order_rule2_le b a = true.
Proof.
  destruct comparison_laws_order_rule2 as (_ & _ & Hanti & _).
  unfold order_rule2_le. rewrite (Hanti b a). by destruct (order_rule2_compare a b).
Qed.

Lemma order_rule2_le_trans a b c :
  order_rule2_le a b = true → order_rule2_le b c = true → order_rule2_le a c = true.
Proof.
  destruct comparison_laws_order_rule2 as (_ & Heq & _ & Htrans).
  unfold order_rule2_le.
  destruct (order_rule2_compare a b) eqn:Hab; [|intros _|done].
  - by apply Heq in Hab as ->.
  - destruct (order_rule2_compare b c) eqn:Hbc; [|intros _|done].
    + apply Heq in Hbc as <-. by rewrite Hab.
    + by rewrite (Htrans _ _ _ Hab Hbc).
Qed.

Lemma order_rule2_le_antisym a b :
  order_rule2_le a b = true → order_rule2_le b a = true → a = b.
Proof.
  destruct comparison_laws_order_rule2 as (_ & Heq & Hanti & _).
  unfold order_rule2_le. rewrite (Hanti b a).
  destruct (order_rule2_compare a b) eqn:Hab; simpl; [|done..].
  intros _ _. by apply Heq.
Qed.

Lemma sorted_ext {A K} (key1 key2 : A → K) (le : K → K → bool) (l : list A) :
  (∀ x, key1 x = key2 x) → sorted key1 le l = sorted key2 le l.
Proof.
  intros Hkey. induction l as [|x l IH]; [done|].
  change (insert_sorted key1 le x (sorted key1 le l)
          = insert_sorted key2 le x (sorted key2 le l)).
  rewrite IH. generalize (sorted key2 le l). intros sl.
  induction sl as [|y sl IHsl]; simpl; [done|]. by rewrite !Hkey, IHsl.
Qed.

(** The keys of a sorted list depend on the members only, not on the
    order they came in. *)
Lemma sorted_keys_unique {A K} (key : A → K) (le : K → K → bool) (l1 l2 : list A) :
  (∀ a b, le a b = false → le b a = true) →
  (∀ a b c, le a b = true → le b c = true → le a c = true) →
  (∀ a b, le a b = true → le b a = true → a = b) →
  l1 ≡ₚ l2 → key <$> sorted key le l1 = key <$> sorted key le l2.
Proof.
  intros Htotal Htrans Hanti Hperm.
  apply (StronglySorted_unique_strong (λ a b, le a b = true)).
  - intros a b _ _. apply Hanti.
  - apply (StronglySorted_fmap key (λ x y, le (key x) (key y) = true)); [done|].
    by apply sorted_sorted.
  - apply (StronglySorted_fmap key (λ x y, le (key x) (key y) = true)); [done|].
    by apply sorted_sorted.
  - by rewrite !sorted_perm, Hperm.
Qed.

Section OrderRule2Facts.
Context {order : IterOrder}.

(** X22. [order_rule2] keeps the head and returns the literals of the body
    with keys [(len(arguments), predicate, arguments)] that never go
    down; applied twice it changes nothing more. *)
Lemma order_rule2_sorted head body :
  ∃ ordered_body,
    order_rule2 (head, body) = (head, BodyTuple ordered_body)
    ∧ ordered_body ≡ₚ py_iter body
    ∧ (∀ (i j : nat) a b, i < j →
         ordered_body !! i = Some a → ordered_body !! j = Some b →
         order_rule2_le (length (arguments a), predicate a, arguments a)
           (length (arguments b), predicate b, arguments b) = true)
    ∧ order_rule2 (order_rule2 (head, body)) = order_rule2 (head, body).
Proof.
  eexists. split; [reflexivity|]. split; [apply sorted_perm|]. split.
  - intros i j a b Hij Hi Hj.
    exact (sorted_lookup_le (λ x, (length (arguments x), predicate x, arguments x))
             order_rule2_le order_rule2_le_total order_rule2_le_trans
             (py_iter body) i j a b Hij Hi Hj).
  - unfold order_rule2. simpl. do 2 f_equal. apply sorted_of_sorted.
    apply (sorted_sorted _ _ order_rule2_le_total order_rule2_le_trans).
Qed.

Lemma format_literal_key (l : Literal) :
  format_literal l
  = (λ k : nat * string * list string, k.1.2 +:+ "(" +:+ String.concat "," k.2 +:+ ")")
      (length (arguments l), predicate l, arguments l).
Proof. done. Qed.

(** The text [order_rule2] leads to does not depend on the order in
    which the body lists its literals. *)
Lemma format_order_rule2_canonical head body1 body2 :
  py_iter body1 ≡ₚ py_iter body2 →
  format_rule (order_rule2 (head, body1)) = format_rule (order_rule2 (head, body2)).
Proof.
  intros Hperm. unfold order_rule2, format_rule. cbn [py_iter].
  do 3 f_equal.
  set (key := λ x : Literal, (length (arguments x), predicate x, arguments x)).
  set (text := λ k : nat * string * list string,
                 k.1.2 +:+ "(" +:+ String.concat "," k.2 +:+ ")").
  assert (∀ l : list Literal, format_literal <$> l = text <$> (key <$> l)) as Htext.
  { intros l. rewrite <-list_fmap_compose. done. }
  rewrite !Htext.
  by rewrite (sorted_keys_unique key order_rule2_le (py_iter body1) (py_iter body2)
                order_rule2_le_total order_rule2_le_trans order_rule2_le_antisym Hperm).
Qed.

End OrderRule2Facts.

(** X24. [format_prog2] gives the same text under every iteration order of
    the frozensets in the program. *)
Lemma format_prog2_deterministic (order1 order2 : IterOrder) (prog : list Rule) :
  format_prog2 (order := order1) prog = format_prog2 (order := order2) prog.
Proof.
  assert (∀ rule, rule_is_recursive (order := order1) rule
                  = rule_is_recursive (order := order2) rule) as Hrec.
  { intros [[h|] body]; [|done]. simpl. apply existsb_same_members.
    intros x. by rewrite !elem_of_py_iter. }
  assert (order_prog (order := order1) prog = order_prog (order := order2) prog) as Hprog.
  { apply sorted_ext. intros rule. by rewrite Hrec. }
  unfold format_prog2. rewrite Hprog. f_equal.
  apply list_fmap_ext. intros _ [head body] _.
  destruct body as [s|t].
  - rewrite (format_order_rule2_canonical (order := order1) head (BodySet s)
               (BodyTuple (set_iter (IterOrder := order2) s))).
    + done.
    + simpl. by rewrite !set_iter_perm.
  - done.
Qed.

(** ** The printer *)

Section PrinterFacts.
Context {order : IterOrder}.

Lemma format_rules_returns (rules : list Rule) :
  (∃ lines, format_rules rules = Some (Ok lines))
  ↔ ∀ rule, rule ∈ rules → ∃ ordered, order_rule rule None = Some (Ok ordered).
Proof.
  induction rules as [|rule rules IH]; cbn [format_rules].
  - split; [by intros _ ? ?%elem_of_nil|by eexists].
  - split.
    + intros [lines Hrun] rule' Hin. revert Hrun.
      destruct (order_rule rule None) as [[ordered|e]|] eqn:Hrule; [|done..].
      destruct (format_rules rules) as [[lines'|e]|] eqn:Hrest; [|done..].
      intros _. apply elem_of_cons in Hin as [->|Hin]; [by eexists|].
      apply IH; [by eexists|done].
    + intros Hall. destruct (Hall rule) as [ordered ->]; [left|].
      destruct (proj2 IH) as [lines ->]; [|by eexists].
      intros rule' Hin. apply Hall. by right.
Qed.

(** X25. [format_prog] returns a text exactly when every rule of the
    program has a grounding-safe schedule; otherwise it raises. *)
Lemma format_prog_returns (prog : list Rule) :
  ((∃ text, format_prog prog = Some (Ok text))
   ↔ ∀ head body, (head, body) ∈ prog →
       ∃ schedule, safe_schedule (head_inputs head) (py_set body) schedule)
  ∧ ((∃ e, format_prog prog = Some (Raise e)) ∨ ∃ text, format_prog prog = Some (Ok text)).
Proof.
  assert ((∃ text, format_prog prog = Some (Ok text))
          ↔ ∃ lines, format_rules (order_prog prog) = Some (Ok lines)) as Htext.
  { unfold format_prog. destruct (format_rules (order_prog prog)) as [[lines|e]|];
      split; intros [x Hx]; try done; by eexists. }
  split.
  - rewrite Htext, format_rules_returns. split.
    + intros Hall head body Hin. apply (order_rule_complete head body None I).
      destruct (Hall (head, body)) as [ordered Hrun].
      { unfold order_prog. by rewrite sorted_perm. }
      destruct (order_rule_Ok _ _ _ _ Hrun) as (ob & -> & _). by exists ob.
    + intros Hall [head body] Hin. unfold order_prog in Hin. rewrite sorted_perm in Hin.
      destruct (proj1 (order_rule_complete head body None I) (Hall _ _ Hin)) as [ob ->].
      by eexists.
  - unfold format_prog.
    assert (is_Some (format_rules (order_prog prog))) as [[lines|e] ->];
      [|right; by eexists|left; by eexists].
    generalize (order_prog prog). intros rules.
    induction rules as [|rule rules [r Hr]]; cbn [format_rules]; [done|].
    destruct (order_rule_total rule None) as [[ordered|e] ->]; [|done].
    rewrite Hr. by destruct r.
Qed.

(** X7. A rule without body needs no scheduling: both policies return the
    head with the empty tuple. *)
Lemma order_rule_empty_body head body settings :
  py_set body = ∅ → order_rule (head, body) settings = Some (Ok (head, BodyTuple [])).
Proof.
  intros Hempty. destruct settings as [st|]; [destruct (datalog st) eqn:Hd|].
  - unfold order_rule. rewrite Hd. unfold order_rule_datalog. rewrite Hempty.
    by rewrite size_empty.
  - rewrite order_rule_mode_directed by done. rewrite Hempty. by rewrite size_empty.
  - rewrite order_rule_mode_directed by done. rewrite Hempty. by rewrite size_empty.
Qed.

End PrinterFacts.

(** * Further properties: statements and instances *)

(** X1. [order_rule] always comes to an end: it returns the head with a
    tuple, or raises the [ValueError] of the grounding message.  Its loops
    need no more iterations than the body has literals. *)
Theorem order_rule_outcome `{order : IterOrder} head body settings :
  (∃ ordered_body,
     order_rule (head, body) settings = Some (Ok (head, BodyTuple ordered_body)))
  ∨ order_rule (head, body) settings
    = Some (Raise (ValueError (grounding_message (head, body)))).
Proof.
  destruct (order_rule_total (head, body) settings) as [[r|e] Hrun].
  - left. destruct (order_rule_Ok _ _ _ _ Hrun) as (ob & -> & _). by exists ob.
  - right. rewrite Hrun. by rewrite (order_rule_Raise _ _ _ Hrun).
Qed.

(** X2. The greedy selection loses nothing: under the mode-directed policy
    [order_rule] returns a schedule exactly when the literals of the body
    can be put in some grounding-safe order, and raises when they
    cannot. *)
Theorem greedy_schedule_complete `{order : IterOrder} head body settings :
  mode_directed settings →
  ((∃ schedule, safe_schedule (head_inputs head) (py_set body) schedule)
   ↔ ∃ ordered_body, order_rule (head, body) settings
                     = Some (Ok (head, BodyTuple ordered_body)))
  ∧ ((¬ ∃ schedule, safe_schedule (head_inputs head) (py_set body) schedule)
     → order_rule (head, body) settings
       = Some (Raise (ValueError (grounding_message (head, body))))).
Proof.
  intros Hmode. split; [by apply order_rule_complete|by apply order_rule_no_schedule].
Qed.

Lemma greedy_schedule_complete_witness :
  let head := Some Examples.p_A in
  let body := BodySet {[Examples.r_BC; Examples.q_AB]} in
  ((∃ schedule, safe_schedule (head_inputs head)
                  (py_set body) schedule)
   ↔ ∃ ordered_body, order_rule (order := elements_order) (head, body) None
                     = Some (Ok (head, BodyTuple ordered_body)))
  ∧ ((¬ ∃ schedule, safe_schedule (head_inputs head)
                      (py_set body) schedule)
     → order_rule (order := elements_order) (head, body) None
       = Some (Raise (ValueError
           (grounding_message (order := elements_order) (head, body))))).
Proof.
  intros head body.
  exact (greedy_schedule_complete (order := elements_order) head body None I).
Defined.

(** X3. The recall-directed policy has no failure case: with [datalog] on,
    [order_rule] returns the head with the literals of the body, each
    once. *)
Theorem recall_policy_succeeds `{order : IterOrder} head body (settings : Settings) :
  datalog settings = true →
  ∃ ordered_body,
    order_rule (head, body) (Some settings) = Some (Ok (head, BodyTuple ordered_body))
    ∧ ordered_body ≡ₚ elements (py_set body).
Proof. apply order_rule_datalog_succeeds. Qed.

Lemma recall_policy_succeeds_witness :
  ∃ ordered_body,
    order_rule (order := elements_order)
      (Some Examples.p_A, BodyTuple [Examples.r_BC; Examples.s_D])
      (Some Examples.settings_recall)
    = Some (Ok (Some Examples.p_A, BodyTuple ordered_body))
    ∧ ordered_body
      ≡ₚ elements (py_set (BodyTuple [Examples.r_BC; Examples.s_D])).
Proof.
  apply (recall_policy_succeeds (order := elements_order) (Some Examples.p_A)
           (BodyTuple [Examples.r_BC; Examples.s_D]) Examples.settings_recall).
  reflexivity.
Defined.

Lemma order_rule_again_witness :
  ∃ again,
    order_rule (order := elements_order)
      (Some Examples.p_A, BodyTuple [Examples.q_AB; Examples.r_BC]) None
    = Some (Ok again).
Proof.
  apply (order_rule_again (order := elements_order)
           (Some Examples.p_A, BodySet {[Examples.r_BC; Examples.q_AB]}) None).
  vm_compute. reflexivity.
Defined.

Lemma order_rule_preserves_witness :
  let rule : Rule := (Some Examples.p_A, BodySet {[Examples.r_BC; Examples.q_AB]}) in
  let ordered : Rule := (Some Examples.p_A, BodyTuple [Examples.q_AB; Examples.r_BC]) in
  ordered.1 = Some Examples.p_A
  ∧ rule_size ordered ≤ rule_size rule
  ∧ (∀ s, BodySet {[Examples.r_BC; Examples.q_AB]} = BodySet s →
       rule_size ordered
       = rule_size rule)
  ∧ rule_is_recursive (order := elements_order) ordered
    = rule_is_recursive (order := elements_order) rule
  ∧ rule_is_invented ordered = rule_is_invented rule.
Proof.
  intros rule ordered.
  apply (order_rule_preserves (order := elements_order) (Some Examples.p_A)
           (BodySet {[Examples.r_BC; Examples.q_AB]}) None ordered).
  vm_compute. reflexivity.
Defined.

Lemma order_rule_recursion_last_witness :
  ¬ is_generator Examples.q_C
  ∧ ¬ (non_recursive (Some Examples.p2) Examples.q_C = true
       ∧ inputs Examples.q_C
         ⊆ head_inputs (Some Examples.p2)
           ∪ ⋃ (outputs <$> take 0 [Examples.p_AC; Examples.q_C])).
Proof.
  apply (order_rule_recursion_last (order := elements_order) (Some Examples.p2)
           (BodySet {[Examples.q_C; Examples.p_AC]}) None
           [Examples.p_AC; Examples.q_C] 0 1 Examples.p_AC Examples.q_C).
  - exact I.
  - vm_compute. reflexivity.
  - lia.
  - reflexivity.
  - reflexivity.
  - reflexivity.
  - unfold is_generator. vm_compute. discriminate.
Defined.

Lemma order_rule_empty_body_witness :
  order_rule (order := elements_order) (Some Examples.p_A, BodySet ∅)
    (Some Examples.settings_recall)
  = Some (Ok (Some Examples.p_A, BodyTuple [])).
Proof.
  apply (order_rule_empty_body (order := elements_order) (Some Examples.p_A)
           (BodySet ∅) (Some Examples.settings_recall)).
  reflexivity.
Defined.

(** X11. Subsumption is a preorder on rules and on programs:
    [rule_subsumes] and [theory_subsumes] are reflexive and transitive. *)
Theorem subsumes_preorder :
  (∀ r : ReducedRule, rule_subsumes r r = true)
  ∧ (∀ r1 r2 r3 : ReducedRule,
       rule_subsumes r1 r2 = true → rule_subsumes r2 r3 = true →
       rule_subsumes r1 r3 = true)
  ∧ (∀ prog : list ReducedRule, theory_subsumes prog prog = true)
  ∧ (∀ prog1 prog2 prog3 : list ReducedRule,
       theory_subsumes prog1 prog2 = true → theory_subsumes prog2 prog3 = true →
       theory_subsumes prog1 prog3 = true).
Proof.
  destruct rule_subsumes_preorder as [? ?], theory_subsumes_preorder as [? ?]. done.
Qed.

(** X14. Deduplication of a program whose rules all have a head returns
    rules of the program, one for every signature that occurs in it, and
    no two of the same signature. *)
Theorem reduce_prog_representatives `{order : IterOrder} (prog : list Rule) :
  (∀ rule, rule ∈ prog → rule.1 ≠ None) →
  ∃ out, reduce_prog prog = Ok out
    ∧ (∀ rule, rule ∈ out → rule ∈ prog)
    ∧ (∀ rule, rule ∈ prog → ∃ rule', rule' ∈ out ∧ reduce_key rule' = reduce_key rule)
    ∧ (∀ (i j : nat) ri rj, out !! i = Some ri → out !! j = Some rj →
         reduce_key ri = reduce_key rj → i = j).
Proof. apply reduce_prog_headed. Qed.

Lemma reduce_prog_representatives_witness :
  let prog := [Examples.rule_q_r; Examples.rule_r_q] in
  ∃ out, reduce_prog (order := elements_order) prog = Ok out
    ∧ (∀ rule, rule ∈ out → rule ∈ prog)
    ∧ (∀ rule, rule ∈ prog →
         ∃ rule', rule' ∈ out
           ∧ reduce_key (order := elements_order) rule'
             = reduce_key (order := elements_order) rule)
    ∧ (∀ (i j : nat) ri rj, out !! i = Some ri → out !! j = Some rj →
         reduce_key (order := elements_order) ri
         = reduce_key (order := elements_order) rj → i = j).
Proof.
  intros prog. apply (reduce_prog_representatives (order := elements_order) prog).
  intros rule Hin.
  apply elem_of_cons in Hin as [->|Hin]; [discriminate|].
  apply elem_of_cons in Hin as [->|Hin]; [discriminate|].
  inversion Hin.
Defined.

Lemma reduce_prog_idempotent_witness :
  length [Examples.rule_r_q] ≤ length [Examples.rule_q_r; Examples.rule_r_q]
  ∧ reduce_prog (order := elements_order) [Examples.rule_r_q]
    = Ok [Examples.rule_r_q].
Proof.
  apply (reduce_prog_idempotent (order := elements_order)
           [Examples.rule_q_r; Examples.rule_r_q] [Examples.rule_r_q]).
  vm_compute. reflexivity.
Defined.

Lemma reduce_prog_keeps_last_witness :
  ∃ before after,
    [Examples.rule_q_r; Examples.rule_r_q] = before ++ Examples.rule_r_q :: after
    ∧ ∀ later, later ∈ after →
        reduce_key (order := elements_order) later
        ≠ reduce_key (order := elements_order) Examples.rule_r_q.
Proof.
  apply (reduce_prog_keeps_last (order := elements_order)
           [Examples.rule_q_r; Examples.rule_r_q] [Examples.rule_r_q]).
  - vm_compute. reflexivity.
  - apply list_elem_of_here.
Defined.

Lemma bias_order_expanded_ok_witness :
  ∃ hspace, Some 28%Z = Some hspace
    ∧ configuration_ok Examples.settings_by_space (6, 2, 2, hspace)%Z.
Proof.
  refine (bias_order_expanded_ok Examples.settings_by_space
            (with_search_order Examples.settings_by_space Examples.sequence_by_space) 5
            Examples.sequence_by_space _ _ (6, 2, 2, Some 28)%Z _).
  - reflexivity.
  - vm_compute. reflexivity.
  - do 3 apply list_elem_of_further. apply list_elem_of_here.
Defined.

Lemma bias_order_expanded_exact_witness :
  ((6, 2, 2, Some 28)%Z ∈ Examples.sequence_by_space
   ↔ ∃ hspace, Some 28%Z = Some hspace
       ∧ configuration_ok Examples.settings_by_space (6, 2, 2, hspace)%Z
       ∧ comb ((Z.of_nat (size (body_preds Examples.settings_by_space)) + 1)
               * 2 ^ max_arity Examples.settings_by_space) 6 = Ok hspace)
  ∧ NoDup Examples.sequence_by_space.
Proof.
  destruct (bias_order_expanded_exact Examples.settings_by_space
              (with_search_order Examples.settings_by_space Examples.sequence_by_space)
              5 Examples.sequence_by_space) as [Hiff Hnodup].
  - reflexivity.
  - vm_compute. reflexivity.
  - split; [apply Hiff|exact Hnodup].
Defined.

Lemma bias_order_space_permutation_witness :
  ∃ settings1' out1,
    bias_order Examples.settings_by_sweep 5 = Ok (settings1', out1)
    ∧ Examples.sequence_by_space ≡ₚ out1.
Proof.
  apply (bias_order_space_permutation Examples.settings_by_sweep
           Examples.settings_by_space
           (with_search_order Examples.settings_by_space Examples.sequence_by_space)
           5 Examples.sequence_by_space); reflexivity.
Defined.

Lemma bias_order_natural_order_witness :
  (1 < 1 ∨ (1 = 1 ∧ (2 < 3 ∨ (2 = 3 ∧ 3 < 2))))%Z.
Proof.
  refine (bias_order_natural_order Examples.settings_by_sweep
            (with_search_order Examples.settings_by_sweep Examples.sequence_by_sweep) 5
            Examples.sequence_by_sweep _ _ _
            3 4 (2, 3, 1, Some 153)%Z (3, 2, 1, Some 56)%Z _ _ _).
  - reflexivity.
  - reflexivity.
  - vm_compute. reflexivity.
  - lia.
  - reflexivity.
  - reflexivity.
Defined.

(** X21. [bias_order] does not raise when the largest arity is not
    negative and either no-bias is on or [max_vars] is not negative; the
    exceptions of [pow] and [math.comb] need a negative number. *)
Theorem bias_order_never_raises (settings : Settings) (max_size : Z) :
  (0 ≤ max_arity settings)%Z →
  no_bias settings = true ∨ (0 ≤ max_vars settings)%Z →
  ∃ settings' out, bias_order settings max_size = Ok (settings', out).
Proof.
  intros Harity Hvars.
  destruct (bias_order_returns settings max_size Harity Hvars) as [[settings' out] ->].
  by do 2 eexists.
Qed.

Lemma bias_order_never_raises_witness :
  ∃ settings' out, bias_order Examples.settings_by_space 5 = Ok (settings', out).
Proof.
  apply (bias_order_never_raises Examples.settings_by_space 5).
  - vm_compute. discriminate.
  - left. reflexivity.
Defined.

(** X23. The text of a rule sorted by [order_rule2] does not depend on
    the order in which the body lists its literals. *)
Theorem order_rule2_text_canonical `{order : IterOrder} head body1 body2 :
  py_iter body1 ≡ₚ py_iter body2 →
  format_rule (order_rule2 (head, body1)) = format_rule (order_rule2 (head, body2)).
Proof. apply format_order_rule2_canonical. Qed.

Lemma order_rule2_text_canonical_witness :
  format_rule (order := elements_order)
    (order_rule2 (order := elements_order) Examples.rule_q_r)
  = format_rule (order := elements_order)
      (order_rule2 (order := elements_order) Examples.rule_r_q).
Proof.
  apply (order_rule2_text_canonical (order := elements_order) (Some Examples.p2)
           (BodyTuple [Examples.q_A; Examples.r_B])
           (BodyTuple [Examples.r_B; Examples.q_A])).
  apply perm_swap.
Defined.

(** Runs of the printers. *)
Example format_prog_text :
  format_prog (order := elements_order)
    [Examples.rule_recursive; Examples.rule_two_literals]
  = Some (Ok ("p(A):- q(A,B),r(B,C)." +:+ newline +:+ "p(A):- p(A).")).
Proof. vm_compute. reflexivity. Qed.

Example format_prog2_text :
  format_prog2 (order := elements_order) [Examples.rule_r_q]
  = "p(A,B):- q(A),r(B).".
Proof. vm_compute. reflexivity. Qed.
